(** * Frequency-training tool: question generation, scoring, loudness gain

    A shallow embedding of the algorithmic core of the application:
    [MathUtils] (log/linear conversion, sampling, error ratio, shuffle),
    [ScoreCalculator] (per-question score, reporting bands, session
    aggregation), [QuestionGenerator] (constrained random sampling) and
    [EqualLoudness] (curve interpolation).

    Numbers.  A JavaScript number is modelled by a real ([R]) and the
    arithmetic on numbers by the exact operations: the IEEE rounding of an
    operation is abstracted away.  The exception is the pair [linearToLog]
    and [logToLinear]: their composition rounds to an integer a value that
    can sit on a tie, where the last bit decides.  There [Math.log10] and
    [Math.pow] return doubles: the double nearest to the exact value
    ([JSMath.double], binary64, ties to even), the accuracy that ECMAScript
    leaves to the implementation being taken as the best one.  Infinite
    values do not occur on the paths modelled here, and [NaN] can only be
    produced by the division [0 / 0] of an empty mean, or by reading a
    missing entry: such results have type [option _] with [None] standing
    for [NaN].  Values produced by [Math.round] are integers ([Z]).

    Randomness.  [Math.random()] is an oracle: the state holds the stream
    [entropy : nat -> R] of the values still to come and every call takes
    the first one.  The contract of [Math.random()], values in [[0, 1)],
    is the hypothesis [unit_interval] of the theorems on generation.

    Ghost results.  The retry loop of the generator also returns a boolean
    that the JavaScript does not have: whether the loop was left through
    [break].  It is carried next to each question; what it means is
    proved from the values of [Math.random()] that the run consumed, not
    assumed ([RunSpec]). *)

From Stdlib Require Import Reals Lra Lia ZArith Ascii HexadecimalString.
From stdpp Require Import base option list sorting gmap strings.

Local Open Scope R_scope.

(** ** Numbers and the [Math] object *)

#[global] Instance Rlt_decision : RelDecision Rlt := Rlt_dec.
#[global] Instance Rle_decision : RelDecision Rle := Rle_dec.
#[global] Instance Req_decision : EqDecision R := Req_dec_T.
#[global] Instance R_inhabited : Inhabited R := populate 0.

Module JSMath.

(** [Math.floor] *)
Definition floor (x : R) : Z := Int_part x.

(** [Math.round]: nearest integer, ties towards plus infinity. *)
Definition round (x : R) : Z := floor (x + / 2).

(** The logarithm in base 10 of a positive number: [Math.log10] where its
    rounding is abstracted away. *)
Definition log10 (x : R) : R := ln x / ln 10.

(** 10 to the power [y]: [Math.pow(10, y)] where its rounding is
    abstracted away. *)
Definition pow10 (y : R) : R := Rpower 10 y.

(** The integer nearest to [x]; a tie goes to the even one. *)
Definition roundEven (x : R) : Z :=
  let n := floor x in
  let r := x - IZR n in
  if bool_decide (r < / 2) then n
  else if bool_decide (/ 2 < r) then (n + 1)%Z
  else if Z.even n then n else (n + 1)%Z.

(** The binary exponent [e] of a number [x] other than 0:
    [2^e <= |x| < 2^(e+1)]. *)
Definition exponent (x : R) : Z := floor (ln (Rabs x) / ln 2).

(** The distance between the doubles next to [x]: 52 fraction bits below
    the exponent, which does not go below -1022 (subnormal numbers). *)
Definition ulp (x : R) : R := powerRZ 2 (Z.max (exponent x) (-1022) - 52).

(** The double (IEEE 754 binary64) nearest to [x], ties to even, for [x]
    below the overflow threshold. *)
Definition double (x : R) : R := IZR (roundEven (x / ulp x)) * ulp x.

(** [x < y] on numbers, as a boolean. *)
Definition ltb (x y : R) : bool := bool_decide (x < y).

(** [x < c] where [x] may be [NaN]: every comparison with [NaN] is false. *)
Definition nan_ltb (x : option R) (c : R) : bool :=
  match x with
  | Some v => ltb v c
  | None => false
  end.

End JSMath.

(** ** Effects: the random oracle, the shared set, failures *)

Module Eff.

(** What can go wrong besides returning: a [TypeError] raised by a property
    read on [undefined], or an array that would receive an [undefined]
    hole (an index outside the array), which leaves the list model. *)
Inductive Failure := TypeError | ArrayHole.

(** [entropy i] is the value of the [i]-th next call to [Math.random()];
    [usedFrequencies] is the one [Set] object ([new Set()]) shared by
    reference between [generateQuestions] and [generateQuestion]; its
    elements are numbers ([Some z]) or [undefined] ([None]). *)
Record State := {
  entropy : nat -> R;
  usedFrequencies : gset (option Z)
}.

Inductive Outcome (A : Type) :=
| Return (a : A) (s : State)
| Fail (e : Failure).
Arguments Return {A} a s.
Arguments Fail {A} e.

Definition M (A : Type) : Type := State -> Outcome A.

Definition ret {A} (a : A) : M A := fun s => Return a s.

Definition bind {A B} (m : M A) (k : A -> M B) : M B :=
  fun s =>
    match m s with
    | Return a s' => k a s'
    | Fail e => Fail e
    end.

Definition throw {A} (e : Failure) : M A := fun _ => Fail e.

(** [Math.random()] *)
Definition mathRandom : M R :=
  fun s => Return (entropy s 0%nat)
             {| entropy := fun i => entropy s (S i);
                usedFrequencies := usedFrequencies s |}.

(** [usedFrequencies = new Set()] *)
Definition newSet : M unit :=
  fun s => Return tt {| entropy := entropy s; usedFrequencies := ∅ |}.

(** [usedFrequencies.has(x)] *)
Definition setHas (x : option Z) : M bool :=
  fun s => Return (bool_decide (x ∈ usedFrequencies s)) s.

(** [usedFrequencies.add(x)] *)
Definition setAdd (x : option Z) : M unit :=
  fun s => Return tt {| entropy := entropy s;
                        usedFrequencies := {[ x ]} ∪ usedFrequencies s |}.

(** The oracle respects the contract of [Math.random()]. *)
Definition unit_interval (s : State) : Prop :=
  forall i, 0 <= entropy s i < 1.

End Eff.

Notation "'do' x <- m ; k" := (Eff.bind m (fun x => k))
  (at level 10, x pattern, m at level 100, k at level 200,
   format "'[v' 'do'  x  <-  m ; '/' k ']'").

(** ** MathUtils *)

Module MathUtils.
Import JSMath Eff.

(** [Math.log10(Math.max(20, Math.min(20000, value)))]; what [Math.log10]
    returns is a double. *)
Definition linearToLog (value : R) : R :=
  double (log10 (Rmax 20 (Rmin 20000 value))).

(** [Math.round(Math.pow(10, logValue))]; what [Math.pow] returns is a
    double. *)
Definition logToLinear (logValue : R) : Z :=
  round (double (pow10 logValue)).

Definition randomLogFreq (min max : R) : M Z :=
  let logMin := log10 min in
  let logMax := log10 max in
  do u <- mathRandom ;
  let logRandom := logMin + u * (logMax - logMin) in
  ret (round (pow10 logRandom)).

Definition lerp (a b t : R) : R := a + (b - a) * t.

Definition calculateError (actual answer : R) : R :=
  if decide (actual = 0) then 1
  else Rabs (actual - answer) / actual.

Definition dbToGain (db : R) : R := pow10 (db / 20).

(** [arr[k]] for a number [k] that is an integer: [None] is [undefined]. *)
Definition arrayGet {A} (arr : list A) (k : Z) : option A :=
  if decide (0 <= k)%Z then arr !! Z.to_nat k else None.

(** [[result[i], result[j]] = [result[j], result[i]]].  Reading outside the
    array gives [undefined], and storing it (or storing past the end)
    leaves an array with a hole: [ArrayHole]. *)
Definition swap {A} (result : list A) (i : nat) (j : Z) : M (list A) :=
  match arrayGet result j, result !! i with
  | Some atJ, Some atI => ret (<[Z.to_nat j := atI]> (<[i := atJ]> result))
  | _, _ => throw ArrayHole
  end.

(** The body of the Fisher-Yates loop [for (i = length - 1; i > 0; i--)];
    the argument is the current value of [i]. *)
Fixpoint shuffleLoop {A} (i : nat) (result : list A) : M (list A) :=
  match i with
  | O => ret result
  | S i' =>
      do u <- mathRandom ;
      let j := floor (u * (INR i + 1)) in
      do result' <- swap result i j ;
      shuffleLoop i' result'
  end.

Definition shuffle {A} (array : list A) : M (list A) :=
  let result := array in
  shuffleLoop (length result - 1) result.

(** [clamp(value, min, max)] *)
Definition clamp (value min max : R) : R := Rmax min (Rmin max value).

(** [interpolate(x, x0, y0, x1, y1)] *)
Definition interpolate (x x0 y0 x1 y1 : R) : R :=
  if bool_decide (x <= x0) then y0
  else if bool_decide (x1 <= x) then y1
  else
    let t := (x - x0) / (x1 - x0) in
    lerp y0 y1 t.

(** [percentage(value, total)] *)
Definition percentage (value total : R) : Z :=
  if decide (total = 0) then 0%Z
  else round (value / total * 100).

(** [octaveRatio(freq1, freq2)], for frequencies that are not 0. *)
Definition octaveRatio (freq1 freq2 : R) : R :=
  Rmax freq1 freq2 / Rmin freq1 freq2.

(** [gainToDb(gain)] *)
Definition gainToDb (gain : R) : R := 20 * log10 (Rmax 0.0001 gain).

(** [x | 0]: truncation towards zero, then wrap-around to 32 signed bits. *)
Definition toInt32 (x : R) : Z :=
  let n := if bool_decide (x < 0) then (- floor (- x))%Z else floor x in
  ((n + 2 ^ 31) mod 2 ^ 32 - 2 ^ 31)%Z.

(** [v.toString(16)] for an integer [v]. *)
Definition toString16 (v : Z) : string :=
  NilZero.string_of_int (Z.to_hex_int v).

(** The function given to [replace] in [generateUUID], applied to the
    matched character [c]. *)
Definition uuidDigit (c : Ascii.ascii) : M string :=
  do u <- mathRandom ;
  let r := toInt32 (u * 16) in
  let v := if decide (c = "x"%char) then r else Z.lor (Z.land r 3) 8 in
  ret (toString16 v).

(** [template.replace(/[xy]/g, f)]: the characters [x] and [y] are
    replaced from left to right, the others are kept. *)
Fixpoint replaceXY (template : list Ascii.ascii) : M string :=
  match template with
  | [] => ret ""%string
  | c :: rest =>
      do head <-
        (if decide (c = "x"%char \/ c = "y"%char) then uuidDigit c
         else ret (String c EmptyString)) ;
      do tail <- replaceXY rest ;
      ret (head +:+ tail)%string
  end.

Definition generateUUID : M string :=
  replaceXY (String.list_ascii_of_string "xxxxxxxx-xxxx-4xxx-yxxx-xxxxxxxxxxxx").

End MathUtils.

(** ** ScoreCalculator *)

Module ScoreCalculator.
Import JSMath.

(** The object returned by [calculateMultiScore].  [score] and [avgError]
    are [NaN] ([None]) when there is no frequency to score. *)
Module Result.
Record t := {
  score : option Z;
  grade : string;
  errors : list R;
  avgError : option R;
  isCorrect : bool
}.
End Result.

(** [while (userAnswers.length < actualFreqs.length) userAnswers.push(1000)],
    with [n] the length of [actualFreqs]; [fuel] bounds the iterations. *)
Fixpoint padLoop (fuel n : nat) (userAnswers : list R) : list R :=
  match fuel with
  | O => userAnswers
  | S fuel' =>
      if (length userAnswers <? n)%nat
      then padLoop fuel' n (userAnswers ++ [1000])
      else userAnswers
  end.

(** The caller's array after the padding loop (it is extended in place). *)
Definition padAnswers (actualFreqs userAnswers : list R) : list R :=
  padLoop (length actualFreqs) (length actualFreqs) userAnswers.

(** [[...userAnswers].sort((a, b) => a - b)] *)
Definition sortAscending (l : list R) : list R := merge_sort Rle l.

(** The answers as they are paired with the actual frequencies. *)
Definition matchedAnswers (actualFreqs userAnswers : list R)
    (sortAnswers : bool) : list R :=
  let userAnswers := padAnswers actualFreqs userAnswers in
  if sortAnswers && (length userAnswers =? 3)%nat
  then sortAscending userAnswers
  else userAnswers.

(** [actualFreqs.map((actual, index) => calculateError(actual, userAnswers[index]))] *)
Definition pairErrors (actualFreqs userAnswers : list R) : list R :=
  imap (fun index actual =>
          MathUtils.calculateError actual (userAnswers !!! index))
       actualFreqs.

(** [errors.reduce((sum, e) => sum + e, 0) / errors.length]; an empty
    list gives [0 / 0], that is [NaN]. *)
Definition average (errors : list R) : option R :=
  let sum := foldl Rplus 0 errors in
  if decide (length errors = 0%nat) then None
  else Some (sum / INR (length errors)).

(** The local [avgError] of [calculateMultiScore] (a ratio, not a percentage). *)
Definition averageError (actualFreqs userAnswers : list R)
    (sortAnswers : bool) : option R :=
  average (pairErrors actualFreqs
             (matchedAnswers actualFreqs userAnswers sortAnswers)).

(** [Math.max(0, Math.min(100, Math.round(100 * Math.exp(-k * avgError))))]
    with [k = 5]; [NaN] propagates. *)
Definition scoreOf (avgError : option R) : option Z :=
  let k := 5 in
  (fun e => Z.max 0 (Z.min 100 (round (100 * exp (- k * e))))) <$> avgError.

Definition gradeOf (avgError : option R) : string :=
  if nan_ltb avgError 0.01 then "完璧!"
  else if nan_ltb avgError 0.05 then "素晴らしい!"
  else if nan_ltb avgError 0.10 then "良い!"
  else if nan_ltb avgError 0.20 then "惜しい"
  else "要練習".

(** [score >= 60], false on [NaN]. *)
Definition scoreAtLeast60 (score : option Z) : bool :=
  match score with
  | Some s => (60 <=? s)%Z
  | None => false
  end.

Definition calculateMultiScore (actualFreqs userAnswers : list R)
    (sortAnswers : bool) : Result.t :=
  let userAnswers := matchedAnswers actualFreqs userAnswers sortAnswers in
  let errors := pairErrors actualFreqs userAnswers in
  let avgError := average errors in
  let score := scoreOf avgError in
  let grade := gradeOf avgError in
  {| Result.score := score;
     Result.grade := grade;
     Result.errors := (fun e => e * 100) <$> errors;
     Result.avgError := (fun e => e * 100) <$> avgError;
     Result.isCorrect := scoreAtLeast60 score |}.

(** The object returned by [calculateScore]. *)
Module SingleResult.
Record t := {
  score : Z;
  grade : string;
  error : R;
  isCorrect : bool
}.
End SingleResult.

Definition calculateScore (actualFreq userAnswer : R) : SingleResult.t :=
  let error := MathUtils.calculateError actualFreq userAnswer in
  let errorPercent := error * 100 in
  let k := 5 in
  let score := round (100 * exp (- k * error)) in
  let score := Z.max 0 (Z.min 100 score) in
  let grade :=
    if ltb error 0.01 then "完璧!"
    else if ltb error 0.05 then "素晴らしい!"
    else if ltb error 0.10 then "良い!"
    else if ltb error 0.20 then "惜しい"
    else "要練習" in
  {| SingleResult.score := score;
     SingleResult.grade := grade;
     SingleResult.error := errorPercent;
     SingleResult.isCorrect := (60 <=? score)%Z |}.

(** The five reporting bands; [bandKey] is the string the code returns. *)
Inductive Band := ultraLow | low | mid | highMid | high.

#[global] Instance Band_eq_dec : EqDecision Band.
Proof. solve_decision. Defined.

Definition bandKey (b : Band) : string :=
  match b with
  | ultraLow => "ultraLow"
  | low => "low"
  | mid => "mid"
  | highMid => "highMid"
  | high => "high"
  end.

Definition getFrequencyRange (frequency : R) : Band :=
  if ltb frequency 100 then ultraLow
  else if ltb frequency 500 then low
  else if ltb frequency 2000 then mid
  else if ltb frequency 8000 then highMid
  else high.

(** [actualFreq] of a record: an array, or (older records) one number. *)
Inductive FreqField :=
| FreqArray (freqs : list R)
| FreqScalar (freq : R).

(** The answer record built by [QuizManager.submitAnswer]. *)
Module AnswerRecord.
Record t := {
  questionNo : nat;
  actualFreq : FreqField;
  userAnswer : list R;
  score : option Z;
  errors : list R;
  avgError : option R;
  responseTime : Z;
  grade : string;
  stereo : bool
}.
End AnswerRecord.

(** One entry of [rangeStats]. *)
Module RangeStat.
Record t := { totalScore : Z; count : nat }.
End RangeStat.

(** The object returned by [calculateSessionScore]; [avgError] is the
    number that the code then prints with [toFixed(2)]. *)
Module Session.
Record t := {
  totalScore : Z;
  avgError : option R;
  rangeAccuracy : Band -> R
}.
End Session.

(** [q.score || 0]: [NaN], [undefined] and [0] all give [0]. *)
Definition scoreOrZero (q : AnswerRecord.t) : Z :=
  default 0%Z (AnswerRecord.score q).

(** [q.avgError || q.error || 0]; the records have no [error] field. *)
Definition avgErrorOrZero (q : AnswerRecord.t) : R :=
  default 0 (AnswerRecord.avgError q).

(** [Array.isArray(q.actualFreq) ? q.actualFreq : [q.actualFreq]] *)
Definition freqsOf (q : AnswerRecord.t) : list R :=
  match AnswerRecord.actualFreq q with
  | FreqArray freqs => freqs
  | FreqScalar freq => [freq]
  end.

Definition initialRangeStats : Band -> RangeStat.t :=
  fun _ => {| RangeStat.totalScore := 0; RangeStat.count := 0 |}.

(** [rangeStats[range].totalScore += s; rangeStats[range].count++] *)
Definition bump (rangeStats : Band -> RangeStat.t) (range : Band) (s : Z)
    : Band -> RangeStat.t :=
  fun b =>
    if decide (b = range)
    then {| RangeStat.totalScore := RangeStat.totalScore (rangeStats b) + s;
            RangeStat.count := S (RangeStat.count (rangeStats b)) |}
    else rangeStats b.

(** The two nested [forEach] loops. *)
Definition collectRangeStats (questions : list AnswerRecord.t)
    : Band -> RangeStat.t :=
  foldl (fun rangeStats q =>
           foldl (fun rangeStats freq =>
                    bump rangeStats (getFrequencyRange freq) (scoreOrZero q))
                 rangeStats (freqsOf q))
        initialRangeStats questions.

Definition accuracyOf (st : RangeStat.t) : R :=
  if (0 <? RangeStat.count st)%nat
  then IZR (RangeStat.totalScore st) / INR (RangeStat.count st) / 100
  else 0.

Definition calculateSessionScore (questions : list AnswerRecord.t)
    : Session.t :=
  let totalScore := foldl (fun sum q => (sum + scoreOrZero q)%Z) 0%Z questions in
  let avgError :=
    let sum := foldl (fun sum q => sum + avgErrorOrZero q) 0 questions in
    if decide (length questions = 0%nat) then None
    else Some (sum / INR (length questions)) in
  let rangeStats := collectRangeStats questions in
  {| Session.totalScore := totalScore;
     Session.avgError := avgError;
     Session.rangeAccuracy := fun b => accuracyOf (rangeStats b) |}.

End ScoreCalculator.

(** ** QuestionGenerator *)

Module QuestionGenerator.
Import JSMath Eff.

Record Range := { min : Z; max : Z; count : nat }.

(** The object literal, in key order ([Object.keys] follows it). *)
Definition FREQUENCY_RANGES : list (string * Range) :=
  [ ("ultraLow",  {| min := 20;    max := 80;    count := 1 |});
    ("low",       {| min := 80;    max := 250;   count := 2 |});
    ("lowMid",    {| min := 250;   max := 500;   count := 1 |});
    ("mid",       {| min := 500;   max := 2000;  count := 3 |});
    ("highMid",   {| min := 2000;  max := 6000;  count := 2 |});
    ("high",      {| min := 6000;  max := 12000; count := 1 |});
    ("ultraHigh", {| min := 12000; max := 20000; count := 1 |}) ].

Record Config := {
  freqCount : nat;
  minFreqGap : R;
  equalLoudness : string;
  stereo : bool
}.

Definition DIFFICULTY : gmap string Config :=
  list_to_map
    [ ("easy",   {| freqCount := 1; minFreqGap := 1.5;
                    equalLoudness := "off"; stereo := false |});
      ("medium", {| freqCount := 2; minFreqGap := 1.25;
                    equalLoudness := "off"; stereo := true |});
      ("hard",   {| freqCount := 3; minFreqGap := 1.1;
                    equalLoudness := "60"; stereo := false |}) ].

(** The question object.  [questionStereo] and [questionEqualLoudness] are
    its properties [stereo] and [equalLoudness] (the names are taken by
    [Config]).  The frequencies come from [Math.round]: integers. *)
Record Question := {
  frequencies : list Z;
  questionStereo : bool;
  waveform : string;
  duration : Z;
  questionEqualLoudness : string
}.

(** [obj[key]] on an object literal given by its entries. *)
Fixpoint property {A} (obj : list (string * A)) (key : string) : option A :=
  match obj with
  | [] => None
  | (k, v) :: rest => if decide (k = key) then Some v else property rest key
  end.

(** The three statements that choose the band:
    [ranges = Object.keys(...)], [ranges[Math.floor(Math.random() * ranges.length)]],
    [FREQUENCY_RANGES[rangeName]].  An [undefined] range raises at the
    first [range.min]. *)
Definition chooseRange : M Range :=
  let ranges := FREQUENCY_RANGES.*1 in
  do u <- mathRandom ;
  match MathUtils.arrayGet ranges (floor (u * INR (length ranges))) with
  | None => throw TypeError
  | Some rangeName =>
      match property FREQUENCY_RANGES rangeName with
      | None => throw TypeError
      | Some range => ret range
      end
  end.

(** [frequencies.some(f => Math.max(f, frequency) / Math.min(f, frequency) < config.minFreqGap)].
    Every frequency is at least 20 ([wp_attemptLoop]), so the divisor is
    never 0. *)
Definition tooClose (config : Config) (frequencies : list Z)
    (frequency : Z) : bool :=
  existsb (fun f =>
             let ratio := IZR (Z.max f frequency) / IZR (Z.min f frequency) in
             ltb ratio (minFreqGap config))
          frequencies.

(** The [do ... while (attempts < 100)] loop.  [remaining] is
    [100 - attempts] after the increment, so the first call has
    [remaining = 99].  The boolean is a ghost result: [true] when the loop
    was left through [break], [false] when the attempts ran out and the
    last candidate is kept. *)
Fixpoint attemptLoop (remaining : nat) (config : Config) (range : Range)
    (frequencies : list Z) : M (Z * bool) :=
  do frequency <- MathUtils.randomLogFreq (IZR (min range)) (IZR (max range)) ;
  let close := tooClose config frequencies frequency in
  do used <- setHas (Some frequency) ;
  if negb close && negb used then ret (frequency, true)
  else
    match remaining with
    | O => ret (frequency, false)
    | S remaining' => attemptLoop remaining' config range frequencies
    end.

(** The [for (i = 0; i < config.freqCount; i++)] loop; [todo] counts the
    iterations left and [clean] (ghost) records that no retry loop ran out
    so far. *)
Fixpoint frequencyLoop (todo : nat) (config : Config)
    (frequencies : list Z) (clean : bool) : M (list Z * bool) :=
  match todo with
  | O => ret (frequencies, clean)
  | S todo' =>
      do range <- chooseRange ;
      do (frequency, accepted) <- attemptLoop 99 config range frequencies ;
      do _ <- setAdd (Some frequency) ;
      frequencyLoop todo' config (frequencies ++ [frequency])
        (clean && accepted)
  end.

(** [generateQuestion(config, usedFrequencies)]; the set is the one in the
    state.  [config] is [None] when the caller looked up an unknown
    difficulty: [config.freqCount] then raises.  The boolean is the ghost
    flag of [frequencyLoop]. *)
Definition generateQuestion (config : option Config) : M (Question * bool) :=
  match config with
  | None => throw TypeError
  | Some config =>
      do (frequencies, clean) <- frequencyLoop (freqCount config) config [] true ;
      let finalFrequencies := merge_sort Z.le frequencies in
      do finalFrequencies <-
        (if stereo config
         then do u <- mathRandom ;
              ret (if ltb u 0.5 then reverse finalFrequencies
                   else finalFrequencies)
         else ret finalFrequencies) ;
      ret ({| frequencies := finalFrequencies;
              questionStereo := stereo config;
              waveform := "sine";
              duration := 10;
              questionEqualLoudness := equalLoudness config |}, clean)
  end.

(** The [for (i = 0; i < count; i++)] loop of [generateQuestions].  The
    object has no [frequency] property, so
    [usedFrequencies.add(question.frequency)] adds [undefined]. *)
Fixpoint questionLoop (todo : nat) (config : option Config)
    (questions : list (Question * bool)) : M (list (Question * bool)) :=
  match todo with
  | O => ret questions
  | S todo' =>
      do question <- generateQuestion config ;
      do _ <- setAdd None ;
      questionLoop todo' config (questions ++ [question])
  end.

(** The questions in the order they are generated, each with its ghost
    flag. *)
Definition generateBatch (difficulty : string) (count : nat)
    : M (list (Question * bool)) :=
  do _ <- newSet ;
  let config := DIFFICULTY !! difficulty in
  questionLoop count config [].

Definition generateQuestions (difficulty : string) (count : nat)
    : M (list Question) :=
  do questions <- generateBatch difficulty count ;
  MathUtils.shuffle (questions.*1).

End QuestionGenerator.

(** ** EqualLoudness *)

Module EqualLoudness.
Import JSMath.

(** One curve of the data file: the entries of a JSON object whose keys
    are frequencies written as numbers and whose values are dB
    corrections.  A key is kept as the number it denotes. *)
Definition Curve : Type := list (R * R).

(** [curve[x]] for a number [x]; [None] is [undefined]. *)
Fixpoint curveAt (curve : Curve) (x : R) : option R :=
  match curve with
  | [] => None
  | (f, db) :: rest => if decide (f = x) then Some db else curveAt rest x
  end.

(** [Object.keys(curve).map(f => parseFloat(f)).sort((a, b) => a - b)] *)
Definition freqPointsOf (curve : Curve) : list R :=
  merge_sort Rle (curve.*1).

(** The search loop over adjacent points; [None] when no pair brackets
    the frequency. *)
Fixpoint findBracket (frequency : R) (freqPoints : list R)
    : option (R * R) :=
  match freqPoints with
  | lower :: ((upper :: _) as rest) =>
      if bool_decide (lower <= frequency) && bool_decide (frequency <= upper)
      then Some (lower, upper)
      else findBracket frequency rest
  | _ => None
  end.

(** [interpolateCorrection(frequency, curve)].  On an empty curve every
    read is [undefined] and the result is [NaN] ([None]). *)
Definition interpolateCorrection (frequency : R) (curve : Curve)
    : option R :=
  let freqPoints := freqPointsOf curve in
  match head freqPoints, last freqPoints with
  | Some first, Some final =>
      if bool_decide (frequency <= first) then curveAt curve first
      else if bool_decide (final <= frequency) then curveAt curve final
      else
        let '(lowerFreq, upperFreq) :=
          default (first, final) (findBracket frequency freqPoints) in
        lowerDb ← curveAt curve lowerFreq;
        upperDb ← curveAt curve upperFreq;
        let logFreq := log10 frequency in
        let logLower := log10 lowerFreq in
        let logUpper := log10 upperFreq in
        let t := (logFreq - logLower) / (logUpper - logLower) in
        Some (MathUtils.lerp lowerDb upperDb t)
  | _, _ => None
  end.

(** [getGain(frequency, phon)]; [curves] is [this.curves] ([None] is
    [null]) and [phon] is a string or [null]. *)
Definition getGain (curves : option (gmap string Curve)) (frequency : R)
    (phon : option string) : option R :=
  match curves, phon with
  | None, _ => Some 1
  | Some _, None => Some 1
  | Some curves, Some phon =>
      if decide (phon = "off") then Some 1
      else
        let curveKey := (phon +:+ "_phon")%string in
        match curves !! curveKey with
        | None => Some 1
        | Some curve =>
            MathUtils.dbToGain <$> interpolateCorrection frequency curve
        end
  end.

End EqualLoudness.

(** ** QuizManager *)

Module QuizManager.
Import Eff ScoreCalculator.

(** The calls received by the audio engine, a collaborator that is not
    modelled further; the most recent call is last. *)
Inductive AudioCall :=
| PlayMultiFrequency (frequencies : list Z) (stereo : bool)
    (waveform : string) (duration : Z) (equalLoudness : string)
| AudioStop.

(** The fields of a [QuizManager].  [score] is a number that can be [NaN]
    ([None]); [timer] tells whether an interval is set. *)
Record t := {
  audioEngine : list AudioCall;
  questions : list QuestionGenerator.Question;
  currentQuestionIndex : nat;
  score : option Z;
  answers : list AnswerRecord.t;
  difficulty : string;
  timer : bool;
  timeRemaining : Z;
  sessionId : option string
}.

(** [new QuizManager(audioEngine)] *)
Definition create (audioEngine : list AudioCall) : t :=
  {| audioEngine := audioEngine;
     questions := [];
     currentQuestionIndex := 0;
     score := Some 0%Z;
     answers := [];
     difficulty := "medium";
     timer := false;
     timeRemaining := 30;
     sessionId := None |}.

(** [startQuiz(difficulty)].  The fields are assigned one after the other,
    so when [generateQuestions] raises only [difficulty] has changed: the
    manager is returned with the outcome. *)
Definition startQuiz (difficulty : string) (qm : t) (s : State)
    : t * Outcome unit :=
  let qm1 :=
    {| audioEngine := audioEngine qm;
       questions := questions qm;
       currentQuestionIndex := currentQuestionIndex qm;
       score := score qm;
       answers := answers qm;
       difficulty := difficulty;
       timer := timer qm;
       timeRemaining := timeRemaining qm;
       sessionId := sessionId qm |} in
  match QuestionGenerator.generateQuestions difficulty 10 s with
  | Fail e => (qm1, Fail e)
  | Return generated s1 =>
      let qm2 :=
        {| audioEngine := audioEngine qm;
           questions := generated;
           currentQuestionIndex := 0;
           score := Some 0%Z;
           answers := [];
           difficulty := difficulty;
           timer := timer qm;
           timeRemaining := timeRemaining qm;
           sessionId := sessionId qm |} in
      match MathUtils.generateUUID s1 with
      | Fail e => (qm2, Fail e)
      | Return uuid s2 =>
          ({| audioEngine := audioEngine qm;
              questions := generated;
              currentQuestionIndex := 0;
              score := Some 0%Z;
              answers := [];
              difficulty := difficulty;
              timer := timer qm;
              timeRemaining := timeRemaining qm;
              sessionId := Some uuid |}, Return tt s2)
      end
  end.

(** [getCurrentQuestion()]; [None] is [undefined]. *)
Definition getCurrentQuestion (qm : t) : option QuestionGenerator.Question :=
  questions qm !! currentQuestionIndex qm.

Definition withAudio (qm : t) (call : AudioCall) : t :=
  {| audioEngine := audioEngine qm ++ [call];
     questions := questions qm;
     currentQuestionIndex := currentQuestionIndex qm;
     score := score qm;
     answers := answers qm;
     difficulty := difficulty qm;
     timer := timer qm;
     timeRemaining := timeRemaining qm;
     sessionId := sessionId qm |}.

Definition withTimer (qm : t) (timer : bool) (timeRemaining : Z) : t :=
  {| audioEngine := audioEngine qm;
     questions := questions qm;
     currentQuestionIndex := currentQuestionIndex qm;
     score := score qm;
     answers := answers qm;
     difficulty := difficulty qm;
     timer := timer;
     timeRemaining := timeRemaining;
     sessionId := sessionId qm |}.

(** [playCurrentQuestion()] *)
Definition playCurrentQuestion (qm : t) : t :=
  match getCurrentQuestion qm with
  | None => qm
  | Some question =>
      withAudio qm
        (PlayMultiFrequency
           (QuestionGenerator.frequencies question)
           (QuestionGenerator.questionStereo question)
           (QuestionGenerator.waveform question)
           (QuestionGenerator.duration question)
           (QuestionGenerator.questionEqualLoudness question))
  end.

(** [stopTimer()] *)
Definition stopTimer (qm : t) : t :=
  if timer qm then withTimer qm false (timeRemaining qm) else qm.

(** [startTimer(callback, onTimeout)]: the state it leaves; the two
    callbacks belong to the caller. *)
Definition startTimer (qm : t) : t :=
  let qm := withTimer qm (timer qm) 30 in
  let qm := stopTimer qm in
  withTimer qm true (timeRemaining qm).

(** One run of the interval function set by [startTimer]; the boolean
    tells whether [onTimeout] is called.  Without an interval nothing
    runs. *)
Definition tick (qm : t) : t * bool :=
  if timer qm then
    let qm := withTimer qm (timer qm) (timeRemaining qm - 1) in
    if (timeRemaining qm <=? 0)%Z then (stopTimer qm, true)
    else (qm, false)
  else (qm, false).

(** [this.score += result.score] *)
Definition addScore (total increment : option Z) : option Z :=
  match total, increment with
  | Some a, Some b => Some (a + b)%Z
  | _, _ => None
  end.

(** [submitAnswer(userAnswers)]: the record returned ([None] is [null]),
    the manager afterwards, and the caller's array afterwards (it is
    padded in place by [calculateMultiScore] and the record holds that
    same array). *)
Definition submitAnswer (userAnswers : list R) (qm : t)
    : option AnswerRecord.t * t * list R :=
  match getCurrentQuestion qm with
  | None => (None, qm, userAnswers)
  | Some question =>
      let qm := stopTimer qm in
      let qm := withAudio qm AudioStop in
      let frequencies := IZR <$> QuestionGenerator.frequencies question in
      let shouldSort :=
        (length frequencies =? 3)%nat
        && negb (QuestionGenerator.questionStereo question) in
      let result := calculateMultiScore frequencies userAnswers shouldSort in
      let userAnswers := padAnswers frequencies userAnswers in
      let answerRecord :=
        {| AnswerRecord.questionNo := currentQuestionIndex qm + 1;
           AnswerRecord.actualFreq := FreqArray frequencies;
           AnswerRecord.userAnswer := userAnswers;
           AnswerRecord.score := Result.score result;
           AnswerRecord.errors := Result.errors result;
           AnswerRecord.avgError := Result.avgError result;
           AnswerRecord.responseTime := 30 - timeRemaining qm;
           AnswerRecord.grade := Result.grade result;
           AnswerRecord.stereo := QuestionGenerator.questionStereo question |} in
      (Some answerRecord,
       {| audioEngine := audioEngine qm;
          questions := questions qm;
          currentQuestionIndex := currentQuestionIndex qm;
          score := addScore (score qm) (Result.score result);
          answers := answers qm ++ [answerRecord];
          difficulty := difficulty qm;
          timer := timer qm;
          timeRemaining := timeRemaining qm;
          sessionId := sessionId qm |},
       userAnswers)
  end.

(** [nextQuestion()] *)
Definition nextQuestion (qm : t) : bool * t :=
  let qm :=
    {| audioEngine := audioEngine qm;
       questions := questions qm;
       currentQuestionIndex := currentQuestionIndex qm + 1;
       score := score qm;
       answers := answers qm;
       difficulty := difficulty qm;
       timer := timer qm;
       timeRemaining := timeRemaining qm;
       sessionId := sessionId qm |} in
  (bool_decide (currentQuestionIndex qm < length (questions qm))%nat, qm).

(** [isFinished()] *)
Definition isFinished (qm : t) : bool :=
  bool_decide (length (questions qm) <= currentQuestionIndex qm)%nat.

(** The object returned by [getResults]. *)
Module Results.
Record t := {
  sessionId : option string;
  timestamp : string;
  mode : string;
  difficulty : string;
  questions : list AnswerRecord.t;
  totalScore : option Z;
  rangeAccuracy : Band -> R
}.
End Results.

(** [getResults()]; [now] is [new Date().toISOString()]. *)
Definition getResults (now : string) (qm : t) : Results.t :=
  let stats := calculateSessionScore (answers qm) in
  {| Results.sessionId := sessionId qm;
     Results.timestamp := now;
     Results.mode := "quiz";
     Results.difficulty := difficulty qm;
     Results.questions := answers qm;
     Results.totalScore := score qm;
     Results.rangeAccuracy := Session.rangeAccuracy stats |}.

End QuizManager.

(** ** StorageManager: the quiz history *)

Module StorageManager.

(** What [localStorage] holds under the history key: nothing, a text that
    [JSON.parse] rejects, or the serialised list of results ([A] is the
    type of one result; serialising and parsing back is taken as the
    identity). *)
Inductive Stored (A : Type) :=
| Absent
| Corrupt
| History (entries : list A).
Arguments Absent {A}.
Arguments Corrupt {A}.
Arguments History {A} entries.

(** [getHistory()] *)
Definition getHistory {A} (stored : Stored A) : list A :=
  match stored with
  | History entries => entries
  | Absent | Corrupt => []
  end.

(** [saveQuizResult(result)]; [quotaLeft] tells whether
    [localStorage.setItem] accepts the text or raises.  The result is
    what the function returns and what the storage holds afterwards. *)
Definition saveQuizResult {A} (result : A) (stored : Stored A)
    (quotaLeft : bool) : bool * Stored A :=
  let history := getHistory stored in
  let history := result :: history in
  let history :=
    if (100 <? length history)%nat then take 100 history else history in
  if quotaLeft then (true, History history) else (false, stored).

(** [clearHistory()] *)
Definition clearHistory {A} (stored : Stored A) : bool * Stored A :=
  (true, Absent).

End StorageManager.

(** ** Vocabulary of the specification *)

Module Spec.
Import ScoreCalculator.

Definition Rsum (l : list R) : R := foldr Rplus 0 l.

Definition Zsum (l : list Z) : Z := foldr Z.add 0%Z l.

(** Arithmetic mean; undefined ([NaN]) on the empty list. *)
Definition mean (l : list R) : option R :=
  match l with
  | [] => None
  | _ => Some (Rsum l / INR (length l))
  end.

(** [|actual - answer| / actual] over the positional pairs. *)
Definition relativeErrors (actual answers : list R) : list R :=
  zip_with (fun a u => Rabs (a - u) / a) actual answers.

(** [round(100 * e^(-5 * averageError))] clamped to [[0, 100]]. *)
Definition expScore (averageError : R) : Z :=
  Z.max 0 (Z.min 100 (JSMath.round (100 * exp (- 5 * averageError)))).

(** The five feedback tiers, best first. *)
Inductive Tier := Perfect | Excellent | Good | Close | NeedsPractice.

Definition tierOf (averageError : R) : Tier :=
  if decide (averageError < 0.01) then Perfect
  else if decide (averageError < 0.05) then Excellent
  else if decide (averageError < 0.10) then Good
  else if decide (averageError < 0.20) then Close
  else NeedsPractice.

(** The text shown for each tier. *)
Definition tierText (t : Tier) : string :=
  match t with
  | Perfect => "完璧!"
  | Excellent => "素晴らしい!"
  | Good => "良い!"
  | Close => "惜しい"
  | NeedsPractice => "要練習"
  end.

(** Higher is better. *)
Definition tierRank (t : Tier) : nat :=
  match t with
  | Perfect => 4
  | Excellent => 3
  | Good => 2
  | Close => 1
  | NeedsPractice => 0
  end.

(** The reporting bands as intervals. *)
Definition inBand (b : Band) (f : R) : Prop :=
  match b with
  | ultraLow => f < 100
  | low => 100 <= f < 500
  | mid => 500 <= f < 2000
  | highMid => 2000 <= f < 8000
  | high => 8000 <= f
  end.

(** The scores attributed to band [b]: the score of a record, once for
    every frequency of its [actualFreq] that falls in [b]. *)
Definition attributed (b : Band) (questions : list AnswerRecord.t)
    : list Z :=
  q ← questions;
  f ← freqsOf q;
  if decide (getFrequencyRange f = b) then [scoreOrZero q] else [].


(** [f] is at distance at least [delta] from every half-integer. *)
Definition awayFromTies (delta f : R) : Prop :=
  forall k : Z, delta <= Rabs (f - (IZR k + / 2)).

(** Every pair of entries at two different positions satisfies [P]. *)
Definition pairwise {A} (P : A -> A -> Prop) (l : list A) : Prop :=
  forall i j a b, i <> j -> l !! i = Some a -> l !! j = Some b -> P a b.

(** [max / min >= gap] *)
Definition gapRespected (gap : R) (a b : Z) : Prop :=
  gap <= IZR (Z.max a b) / IZR (Z.min a b).

(** [f] lies in one of the seven generation bands. *)
Definition inGenerationBand (f : Z) : Prop :=
  exists name range,
    (name, range) ∈ QuestionGenerator.FREQUENCY_RANGES /\
    (QuestionGenerator.min range <= f <= QuestionGenerator.max range)%Z.

End Spec.

(** ** Reasoning about effectful code and the retry loop *)

Module Hoare.
Import Eff.

(** [m] run from [s] returns, and the result and final state satisfy [Q]. *)
Definition wp {A} (m : M A) (s : State) (Q : A -> State -> Prop) : Prop :=
  match m s with
  | Return a s' => Q a s'
  | Fail _ => False
  end.

(** The state after [n] further calls to [Math.random()]. *)
Definition advance (n : nat) (s : State) : State :=
  {| entropy := fun i => entropy s (n + i)%nat;
     usedFrequencies := usedFrequencies s |}.

(** The frequency that [randomLogFreq] computes in [range] when
    [Math.random()] answers [u]. *)
Definition candidate (range : QuestionGenerator.Range) (u : R) : Z :=
  let logMin := JSMath.log10 (IZR (QuestionGenerator.min range)) in
  let logMax := JSMath.log10 (IZR (QuestionGenerator.max range)) in
  JSMath.round (JSMath.pow10 (logMin + u * (logMax - logMin))).

(** The check that ends the retry loop: far enough from the frequencies of
    the question and not used before. *)
Definition passes (config : QuestionGenerator.Config)
    (frequencies : list Z) (s : State) (f : Z) : Prop :=
  QuestionGenerator.tooClose config frequencies f = false
  /\ Some f ∉ usedFrequencies s.

(** [Math.random()] keeps answering 0. *)
Definition zeroEntropy (s : State) : Prop := forall i, entropy s i = 0.

End Hoare.

(** ** What a generated batch must satisfy *)

Module BatchSpec.
Import QuestionGenerator Spec.

(** The number of frequencies and their bands. *)
Definition wellShaped (config : Config) (q : Question) : Prop :=
  length (frequencies q) = freqCount config
  /\ Forall (fun f => inGenerationBand f /\ (20 <= f <= 20000)%Z)
       (frequencies q).

(** For every question of the batch (in generation order) whose retry
    loops all ended through [break]: the gap between any two of its
    frequencies, and no frequency shared with an earlier question. *)
Definition constraintsHold (config : Config)
    (batch : list (Question * bool)) : Prop :=
  forall k q,
    batch !! k = Some (q, true) ->
    pairwise (gapRespected (minFreqGap config)) (frequencies q)
    /\ forall j q' c,
         (j < k)%nat -> batch !! j = Some (q', c) ->
         forall f, f ∈ frequencies q -> f ∉ frequencies q'.

(** The shared set holds every frequency of the batch so far. *)
Definition covered (batch : list (Question * bool)) (s : Eff.State) : Prop :=
  forall q c f,
    (q, c) ∈ batch -> f ∈ frequencies q ->
    Some f ∈ Eff.usedFrequencies s.

End BatchSpec.

(** ** A run of the generator, seen on the oracle *)

Module RunSpec.
Import QuestionGenerator Spec.

(** The check of the retry loop in the terms of the claim: [f] keeps the
    gap to every frequency the question already has and was not used
    before. *)
Definition admissible (gap : R) (chosen : list Z) (used : gset (option Z))
    (f : Z) : Prop :=
  (forall g, g ∈ chosen -> gapRespected gap g f) /\ Some f ∉ used.

(** One pass through the body of the frequency loop, located on the
    stream [e] of the values of [Math.random()]: value number [pos]
    chooses the band and the [draws] values after it give the candidates.
    [chosen] holds the frequencies the question has when the pass starts
    and [used] is the shared set at that time. *)
Record Slot := {
  pos : nat;
  chosen : list Z;
  used : gset (option Z);
  band : Range;
  draws : nat
}.

(** Candidate number [k] of the slot, counted from 0. *)
Definition drawn (e : nat -> R) (sl : Slot) (k : nat) : Z :=
  Hoare.candidate (band sl) (e (pos sl + 1 + k)%nat).

(** The frequency the slot gives to the question: its last candidate. *)
Definition kept (e : nat -> R) (sl : Slot) : Z :=
  drawn e sl (draws sl - 1).

Definition acceptable (config : Config) (sl : Slot) (f : Z) : Prop :=
  admissible (minFreqGap config) (chosen sl) (used sl) f.

(** The slot kept a candidate that passes the check. *)
Definition satisfied (config : Config) (e : nat -> R) (sl : Slot) : Prop :=
  acceptable config sl (kept e sl).

(** The rule of the retry loop.  The band is the one that the first value
    selects among the seven; between 1 and 100 candidates are drawn; every
    candidate before the last failed the check; and the last one passes
    it unless it is the 100th. *)
Definition lawful (config : Config) (e : nat -> R) (sl : Slot) : Prop :=
  FREQUENCY_RANGES.*2 !! Z.to_nat (JSMath.floor (e (pos sl) * 7))
    = Some (band sl)
  /\ (1 <= draws sl <= 100)%nat
  /\ (forall k, (k < draws sl - 1)%nat ->
        ~ acceptable config sl (drawn e sl k))
  /\ (satisfied config e sl \/ draws sl = 100%nat).

(** The slots of one question follow one another: from position [p], with
    the set [u] and the frequencies [sofar], each slot starts where the
    previous one stopped, after its kept candidate joined the question
    and the set. *)
Fixpoint consecutive (e : nat -> R) (p : nat) (u : gset (option Z))
    (sofar : list Z) (slots : list Slot) : Prop :=
  match slots with
  | [] => True
  | sl :: rest =>
      pos sl = p /\ used sl = u /\ chosen sl = sofar
      /\ consecutive e (p + 1 + draws sl)%nat ({[ Some (kept e sl) ]} ∪ u)
           (sofar ++ [kept e sl]) rest
  end.

(** The number of values that the slots take from the stream, and the
    shared set after them. *)
Definition consumed (slots : list Slot) : nat :=
  foldr (fun sl n => (1 + draws sl + n)%nat) 0%nat slots.

Definition usedAfter (e : nat -> R) (u : gset (option Z))
    (slots : list Slot) : gset (option Z) :=
  foldl (fun u sl => {[ Some (kept e sl) ]} ∪ u) u slots.

(** [runs] lists the slots of each question of the batch, in generation
    order from position [p] and set [u]: a question has [freqCount]
    consecutive slots and holds their kept candidates; a stereo profile
    takes one more value after them; the set then receives [undefined]. *)
Fixpoint explains (config : Config) (e : nat -> R) (p : nat)
    (u : gset (option Z)) (questions : list Question)
    (runs : list (list Slot)) : Prop :=
  match questions, runs with
  | [], [] => True
  | q :: questions', slots :: runs' =>
      length slots = freqCount config
      /\ consecutive e p u [] slots
      /\ frequencies q ≡ₚ kept e <$> slots
      /\ explains config e
           (p + consumed slots + (if stereo config then 1 else 0))%nat
           ({[ None ]} ∪ usedAfter e u slots) questions' runs'
  | _, _ => False
  end.

(** State [s] is the oracle [e] from position [p] on, with set [u]. *)
Definition located (e : nat -> R) (p : nat) (u : gset (option Z))
    (s : Eff.State) : Prop :=
  (forall i, Eff.entropy s i = e (p + i)%nat) /\ Eff.usedFrequencies s = u.

End RunSpec.

(** ** What the loudness correction must compute *)

Module LoudnessSpec.
Import EqualLoudness.

(** A usable curve: at least one point, no frequency twice, positive
    frequencies. *)
Definition wellFormed (curve : Curve) : Prop :=
  curve <> [] /\ NoDup (curve.*1) /\ Forall (fun f => 0 < f) (curve.*1).

Definition lowest (curve : Curve) (p : R) : Prop :=
  p ∈ curve.*1 /\ forall q, q ∈ curve.*1 -> p <= q.

Definition highest (curve : Curve) (p : R) : Prop :=
  p ∈ curve.*1 /\ forall q, q ∈ curve.*1 -> q <= p.

(** Two neighbouring points of the curve. *)
Definition adjacent (curve : Curve) (lo hi : R) : Prop :=
  lo ∈ curve.*1 /\ hi ∈ curve.*1 /\ lo < hi
  /\ forall q, q ∈ curve.*1 -> ~ (lo < q < hi).

(** [correction curve f dB]: [dB] is the correction for [f], the dB of the
    nearest end point outside the domain of the curve, and inside it the
    linear interpolation in log10-frequency between two neighbours that
    bracket [f]. *)
Inductive correction (curve : Curve) (f : R) : R -> Prop :=
| correction_below p dB :
    lowest curve p -> f <= p -> (p, dB) ∈ curve ->
    correction curve f dB
| correction_above p dB :
    highest curve p -> p <= f -> (p, dB) ∈ curve ->
    correction curve f dB
| correction_between lo hi dBlo dBhi :
    adjacent curve lo hi -> lo <= f <= hi ->
    (lo, dBlo) ∈ curve -> (hi, dBhi) ∈ curve ->
    let t := (JSMath.log10 f - JSMath.log10 lo)
             / (JSMath.log10 hi - JSMath.log10 lo) in
    correction curve f (dBlo + (dBhi - dBlo) * t).

(** The curve of the example: -10 dB at 100 Hz, 0 dB at 1000 Hz. *)
Definition twoPoints : Curve := [(100, -10); (1000, 0)].

End LoudnessSpec.

(** ** Certified bounds on [exp] *)

Module Enclosure.

(** [n] squarings in fixed point with denominator [scale], each rounded
    up ([up]) or down. *)
Fixpoint squarings (scale : Z) (up : bool) (n : nat) (a : Z) : Z :=
  match n with
  | O => a
  | S n' =>
      squarings scale up n'
        (if up then (a * a + scale - 1) / scale else a * a / scale)%Z
  end.

(** A lower bound of [exp (num / den)], times [scale]: [1 + y] for
    [y = num / den / 2^K], squared [K] times. *)
Definition expLower (scale : Z) (K : nat) (num den : Z) : Z :=
  squarings scale false K (scale + scale * num / (den * 2 ^ Z.of_nat K))%Z.

(** An upper bound of [exp (num / den)], times [scale]: [1 / (1 - y)],
    squared [K] times. *)
Definition expUpper (scale : Z) (K : nat) (num den : Z) : Z :=
  let D := (den * 2 ^ Z.of_nat K)%Z in
  squarings scale true K ((scale * D + (D - num) - 1) / (D - num))%Z.

(** The precision used, and an enclosure of [ln 10]:
    [ln10Lower / ln10Den < ln 10 < (ln10Lower + 1) / ln10Den]. *)
Definition scale : Z := 2 ^ 160.
Definition steps : nat := 72.
Definition ln10Lower : Z := 230258509299404568401.
Definition ln10Den : Z := 10 ^ 20.

End Enclosure.

(** ** Concrete inputs used in the examples *)

Module Examples.
Import ScoreCalculator.



(** A state whose oracle always answers 0, with an empty set. *)
Definition zeroState : Eff.State :=
  {| Eff.entropy := fun _ => 0; Eff.usedFrequencies := ∅ |}.

(** The profile of difficulty easy. *)
Definition easy : QuestionGenerator.Config :=
  {| QuestionGenerator.freqCount := 1;
     QuestionGenerator.minFreqGap := 1.5;
     QuestionGenerator.equalLoudness := "off";
     QuestionGenerator.stereo := false |}.

(** The first question generated from [zeroState] at difficulty easy. *)
Definition lowestQuestion : QuestionGenerator.Question :=
  {| QuestionGenerator.frequencies := [20%Z];
     QuestionGenerator.questionStereo := false;
     QuestionGenerator.waveform := "sine";
     QuestionGenerator.duration := 10;
     QuestionGenerator.questionEqualLoudness := "off" |}.

End Examples.

(** ** Facts about the [Math] model *)

Section MathFacts.
Import JSMath.

Lemma floor_bounds (x : R) : IZR (floor x) <= x < IZR (floor x) + 1.
Proof.
  unfold floor. destruct (base_Int_part x) as [Hlo Hhi]. lra.
Qed.

Lemma floor_unique (x : R) (z : Z) :
  IZR z <= x < IZR z + 1 -> floor x = z.
Proof.
  intros [Hlo Hhi]. unfold floor. symmetry.
  apply Int_part_spec. lra.
Qed.

Lemma floor_ge (x : R) (z : Z) : IZR z <= x -> (z <= floor x)%Z.
Proof.
  intros Hz. destruct (floor_bounds x) as [_ Hhi].
  assert (IZR z < IZR (floor x + 1)) as Hlt by (rewrite plus_IZR; lra).
  apply lt_IZR in Hlt. lia.
Qed.

Lemma floor_lt (x : R) (z : Z) : x < IZR z -> (floor x < z)%Z.
Proof.
  intros Hz. destruct (floor_bounds x) as [Hlo _].
  apply lt_IZR. lra.
Qed.

Lemma floor_mono (x y : R) : x <= y -> (floor x <= floor y)%Z.
Proof.
  intros Hxy. apply floor_ge. destruct (floor_bounds x). lra.
Qed.

Lemma round_mono (x y : R) : x <= y -> (round x <= round y)%Z.
Proof. intros Hxy. apply floor_mono. lra. Qed.

Lemma round_IZR (z : Z) : round (IZR z) = z.
Proof. apply floor_unique. lra. Qed.

Lemma round_between (x : R) (lo hi : Z) :
  IZR lo <= x <= IZR hi -> (lo <= round x <= hi)%Z.
Proof.
  intros [Hlo Hhi]. unfold round. split.
  - apply floor_ge. lra.
  - assert (floor (x + / 2) < hi + 1)%Z; [|lia].
    apply floor_lt. rewrite plus_IZR. lra.
Qed.

Lemma ln10_pos : 0 < ln 10.
Proof. rewrite <- ln_1. apply ln_increasing; lra. Qed.

Lemma pow10_log10 (x : R) : 0 < x -> pow10 (log10 x) = x.
Proof.
  intros Hx. unfold pow10, log10, Rpower.
  replace (ln x / ln 10 * ln 10) with (ln x).
  - by apply exp_ln.
  - field. pose proof ln10_pos. lra.
Qed.

Lemma log10_le (x y : R) : 0 < x -> x <= y -> log10 x <= log10 y.
Proof.
  intros Hx [Hlt | ->]; [|lra].
  unfold log10. pose proof ln10_pos as H10.
  pose proof (ln_increasing x y Hx Hlt).
  apply Rmult_le_compat_r; [|lra].
  left. by apply Rinv_0_lt_compat.
Qed.

Lemma pow10_le (x y : R) : x <= y -> pow10 x <= pow10 y.
Proof. intros Hxy. apply Rle_Rpower; lra. Qed.

Lemma pow10_pos (x : R) : 0 < pow10 x.
Proof. apply exp_pos. Qed.

Lemma exp_le (x y : R) : x <= y -> exp x <= exp y.
Proof.
  intros [Hlt | ->]; [|lra]. left. by apply exp_increasing.
Qed.

End MathFacts.

(** The order on numbers, for the sorting lemmas. *)

#[global] Instance Rle_transitive : Transitive Rle.
Proof. intros x y z. apply Rle_trans. Qed.

#[global] Instance Rle_antisymmetric : AntiSymm eq Rle.
Proof. intros x y. apply Rle_antisym. Qed.

#[global] Instance Rle_total : Total Rle.
Proof. intros x y. destruct (Rle_dec x y); [by left|right; lra]. Qed.

(** ** Doubles *)

Section Doubles.
Import JSMath.

Lemma roundEven_error (x : R) : Rabs (IZR (roundEven x) - x) <= / 2.
Proof.
  unfold roundEven. destruct (floor_bounds x) as [H1 H2].
  repeat case_bool_decide; [| |destruct (Z.even _)];
    rewrite ?plus_IZR; apply Rabs_le; lra.
Qed.

Lemma roundEven_unique (x : R) (n : Z) :
  IZR n - / 2 < x < IZR n + / 2 -> roundEven x = n.
Proof.
  intros [H1 H2]. unfold roundEven.
  destruct (Rle_or_lt (IZR n) x) as [Hge|Hlt].
  - rewrite (floor_unique x n) by lra.
    rewrite bool_decide_true by lra. done.
  - assert (floor x = (n - 1)%Z) as Hfl.
    { apply floor_unique. rewrite minus_IZR. lra. }
    rewrite Hfl, minus_IZR.
    rewrite bool_decide_false by lra. rewrite bool_decide_true by lra. lia.
Qed.

Lemma ln2_pos : 0 < ln 2.
Proof. rewrite <- ln_1. apply ln_increasing; lra. Qed.

Lemma ln_powerRZ_2 (e : Z) : ln (powerRZ 2 e) = IZR e * ln 2.
Proof. rewrite powerRZ_Rpower by lra. apply ln_Rpower. Qed.

Lemma ln_le (x y : R) : 0 < x -> x <= y -> ln x <= ln y.
Proof.
  intros Hx [Hlt| ->]; [|lra]. left. by apply ln_increasing.
Qed.

Lemma exponent_unique (x : R) (e : Z) :
  powerRZ 2 e <= Rabs x < powerRZ 2 (e + 1) -> exponent x = e.
Proof.
  intros [H1 H2]. unfold exponent. apply floor_unique.
  pose proof ln2_pos as Hln2.
  pose proof (powerRZ_lt 2 e ltac:(lra)) as Hpos.
  assert (IZR e * ln 2 <= ln (Rabs x)) as Hlo.
  { rewrite <- ln_powerRZ_2. by apply ln_le. }
  assert (ln (Rabs x) < (IZR e + 1) * ln 2) as Hhi.
  { rewrite <- plus_IZR, <- ln_powerRZ_2. apply ln_increasing; lra. }
  split.
  - apply Rmult_le_reg_r with (ln 2); [done|].
    unfold Rdiv. rewrite Rmult_assoc, Rinv_l by lra. lra.
  - apply Rmult_lt_reg_r with (ln 2); [done|].
    unfold Rdiv. rewrite Rmult_assoc, Rinv_l by lra. lra.
Qed.

Lemma exponent_bounds (x : R) :
  x <> 0 -> powerRZ 2 (exponent x) <= Rabs x < powerRZ 2 (exponent x + 1).
Proof.
  intros Hx. pose proof ln2_pos as Hln2.
  assert (0 < Rabs x) as Hpos by by apply Rabs_pos_lt.
  destruct (floor_bounds (ln (Rabs x) / ln 2)) as [H1 H2].
  fold (exponent x) in H1, H2.
  assert (IZR (exponent x) * ln 2 <= ln (Rabs x)) as Hlo.
  { apply Rmult_le_compat_r with (r := ln 2) in H1; [|lra].
    unfold Rdiv in H1. rewrite Rmult_assoc, Rinv_l in H1 by lra. lra. }
  assert (ln (Rabs x) < (IZR (exponent x) + 1) * ln 2) as Hhi.
  { apply Rmult_lt_compat_r with (r := ln 2) in H2; [|lra].
    unfold Rdiv in H2. rewrite Rmult_assoc, Rinv_l in H2 by lra. lra. }
  rewrite <- (exp_ln (Rabs x)) by done.
  rewrite !powerRZ_Rpower by lra. unfold Rpower. rewrite plus_IZR.
  split; [by apply exp_le|by apply exp_increasing].
Qed.

(** A number of magnitude at least 1 is rounded with a relative error of
    at most 2^-53. *)
Lemma double_error (x : R) :
  1 <= x -> Rabs (double x - x) <= x / 2 ^ 53.
Proof.
  intros Hx. unfold double.
  assert (x <> 0) as Hx0 by lra.
  destruct (exponent_bounds x Hx0) as [Hlo _].
  rewrite (Rabs_pos_eq x) in Hlo by lra.
  assert (0 <= exponent x)%Z as He.
  { unfold exponent. rewrite Rabs_pos_eq by lra.
    destruct (floor_bounds (ln x / ln 2)) as [_ H2].
    assert (0 <= ln x / ln 2).
    { apply Rmult_le_pos; [|left; apply Rinv_0_lt_compat, ln2_pos].
      rewrite <- ln_1. apply ln_le; lra. }
    assert (IZR (-1) < IZR (floor (ln x / ln 2))) as Hlt by (simpl; lra).
    apply lt_IZR in Hlt. lia. }
  unfold ulp. rewrite Z.max_l by lia.
  set (u := powerRZ 2 (exponent x - 52)).
  assert (0 < u) as Hu by (apply powerRZ_lt; lra).
  assert (u * 2 ^ 52 = powerRZ 2 (exponent x)) as Hscale.
  { unfold u. rewrite (pow_powerRZ 2 52), <- powerRZ_add by lra.
    f_equal. lia. }
  pose proof (roundEven_error (x / u)) as Herr.
  replace (IZR (roundEven (x / u)) * u - x)
    with ((IZR (roundEven (x / u)) - x / u) * u) by (field; lra).
  rewrite Rabs_mult, (Rabs_pos_eq u) by lra.
  assert (u <= x / 2 ^ 52) as Hux.
  { apply Rmult_le_reg_r with (2 ^ 52); [lra|].
    unfold Rdiv. rewrite Rmult_assoc, Rinv_l by lra. lra. }
  assert (Rabs (IZR (roundEven (x / u)) - x / u) * u <= / 2 * u) as H
    by (apply Rmult_le_compat_r; lra).
  lra.
Qed.

(** The double nearest to [x], from its exponent and its scaled value. *)
Lemma double_value (x : R) (e n : Z) :
  (-1022 <= e)%Z ->
  powerRZ 2 e <= Rabs x < powerRZ 2 (e + 1) ->
  IZR n - / 2 < x * powerRZ 2 (52 - e) < IZR n + / 2 ->
  double x = IZR n * powerRZ 2 (e - 52).
Proof.
  intros He Hexp Hn. unfold double, ulp.
  rewrite (exponent_unique x e Hexp), Z.max_l by lia.
  replace (x / powerRZ 2 (e - 52)) with (x * powerRZ 2 (52 - e)).
  - by rewrite (roundEven_unique _ n Hn).
  - replace (52 - e)%Z with (- (e - 52))%Z by lia.
    by rewrite powerRZ_neg'.
Qed.

End Doubles.

(** ** Enclosures of [exp] and of powers of 10 *)

Section EnclosureFacts.
Import JSMath Enclosure.

Lemma exp_square (y : R) : exp (y * 2) = exp y * exp y.
Proof. rewrite <- exp_plus. f_equal. lra. Qed.

Lemma squarings_lower (scale : Z) (n : nat) (a : Z) (y : R) :
  (0 < scale)%Z -> (0 <= a)%Z ->
  IZR a / IZR scale <= exp y ->
  IZR (squarings scale false n a) / IZR scale <= exp (y * 2 ^ n).
Proof.
  intros Hscale. revert a y.
  induction n as [|n IH]; intros a y Ha Hle; simpl.
  { by rewrite Rmult_1_r. }
  replace (y * (2 * 2 ^ n)) with (y * 2 * 2 ^ n) by lra.
  assert (0 < IZR scale) as Hs by by apply IZR_lt.
  apply IH.
  - apply Z.div_pos; [nia|done].
  - rewrite exp_square.
    assert (0 <= IZR a) as Ha' by by apply IZR_le.
    assert (0 <= IZR a / IZR scale) as Hq.
    { apply Rmult_le_pos; [done|]. left. by apply Rinv_0_lt_compat. }
    assert (IZR (a * a / scale) * IZR scale <= IZR a * IZR a) as Hdiv.
    { rewrite <- !mult_IZR. apply IZR_le.
      rewrite Z.mul_comm. apply Z.mul_div_le. done. }
    transitivity (IZR a / IZR scale * (IZR a / IZR scale)).
    + apply Rmult_le_reg_r with (IZR scale); [done|].
      replace (IZR a / IZR scale * (IZR a / IZR scale) * IZR scale)
        with (IZR a * IZR a / IZR scale) by (field; lra).
      apply Rmult_le_reg_r with (IZR scale); [done|].
      replace (IZR a * IZR a / IZR scale * IZR scale)
        with (IZR a * IZR a) by (field; lra).
      replace (IZR (a * a / scale) / IZR scale * IZR scale * IZR scale)
        with (IZR (a * a / scale) * IZR scale) by (field; lra).
      done.
    + apply Rmult_le_compat; done.
Qed.

Lemma squarings_upper (scale : Z) (n : nat) (a : Z) (y : R) :
  (0 < scale)%Z ->
  exp y <= IZR a / IZR scale ->
  exp (y * 2 ^ n) <= IZR (squarings scale true n a) / IZR scale.
Proof.
  intros Hscale. revert a y.
  induction n as [|n IH]; intros a y Hle; simpl.
  { by rewrite Rmult_1_r. }
  replace (y * (2 * 2 ^ n)) with (y * 2 * 2 ^ n) by lra.
  assert (0 < IZR scale) as Hs by by apply IZR_lt.
  apply IH. rewrite exp_square.
  pose proof (exp_pos y) as Hpos.
  assert (IZR a * IZR a <= IZR ((a * a + scale - 1) / scale) * IZR scale)
    as Hdiv.
  { rewrite <- !mult_IZR. apply IZR_le.
    pose proof (Z.div_mod (a * a + scale - 1) scale ltac:(lia)) as Hdm.
    pose proof (Z.mod_pos_bound (a * a + scale - 1) scale Hscale) as Hm.
    nia. }
  transitivity (IZR a / IZR scale * (IZR a / IZR scale)).
  - apply Rmult_le_compat; lra.
  - apply Rmult_le_reg_r with (IZR scale); [done|].
    replace (IZR a / IZR scale * (IZR a / IZR scale) * IZR scale)
      with (IZR a * IZR a / IZR scale) by (field; lra).
    apply Rmult_le_reg_r with (IZR scale); [done|].
    replace (IZR a * IZR a / IZR scale * IZR scale)
      with (IZR a * IZR a) by (field; lra).
    replace (IZR ((a * a + scale - 1) / scale) / IZR scale
             * IZR scale * IZR scale)
      with (IZR ((a * a + scale - 1) / scale) * IZR scale) by (field; lra).
    done.
Qed.

Lemma pow2_IZR (K : nat) : IZR (2 ^ Z.of_nat K) = 2 ^ K.
Proof.
  induction K as [|K IH]; [done|].
  rewrite Nat2Z.inj_succ, Z.pow_succ_r by lia.
  rewrite mult_IZR, IH. done.
Qed.

Lemma expLower_sound (scale : Z) (K : nat) (num den : Z) :
  (0 < scale)%Z -> (0 <= num)%Z -> (0 < den)%Z ->
  IZR (expLower scale K num den) / IZR scale <= exp (IZR num / IZR den).
Proof.
  intros Hscale Hnum Hden. unfold expLower.
  set (D := (den * 2 ^ Z.of_nat K)%Z).
  assert (0 < D)%Z as HD by (unfold D; lia).
  assert (0 < IZR scale) as Hs by by apply IZR_lt.
  assert (0 < IZR den) as Hd by by apply IZR_lt.
  assert (0 < IZR D) as HD' by by apply IZR_lt.
  assert (0 < 2 ^ K) as H2K by (apply pow_lt; lra).
  replace (IZR num / IZR den) with (IZR num / IZR D * 2 ^ K).
  2:{ unfold D. rewrite mult_IZR, pow2_IZR. field. lra. }
  apply squarings_lower; [done| |].
  - assert (0 <= scale * num / D)%Z by (apply Z.div_pos; nia). lia.
  - etransitivity; [|apply exp_ineq1_le].
    rewrite plus_IZR.
    assert (IZR (scale * num / D) * IZR D <= IZR scale * IZR num) as Hdiv.
    { rewrite <- !mult_IZR. apply IZR_le.
      rewrite Z.mul_comm. apply Z.mul_div_le. done. }
    apply Rmult_le_reg_r with (IZR scale * IZR D); [nra|].
    replace ((IZR scale + IZR (scale * num / D)) / IZR scale
             * (IZR scale * IZR D))
      with (IZR scale * IZR D + IZR (scale * num / D) * IZR D)
      by (field; lra).
    replace ((1 + IZR num / IZR D) * (IZR scale * IZR D))
      with (IZR scale * IZR D + IZR scale * IZR num) by (field; lra).
    lra.
Qed.

Lemma exp_below_one (y : R) : 0 <= y < 1 -> exp y <= / (1 - y).
Proof.
  intros [H0 H1]. pose proof (exp_ineq1_le (- y)) as Hle.
  rewrite exp_Ropp in Hle. pose proof (exp_pos y) as Hpos.
  apply Rmult_le_reg_r with (1 - y); [lra|].
  rewrite Rinv_l by lra.
  apply Rmult_le_compat_l with (r := exp y) in Hle; [|lra].
  rewrite Rinv_r in Hle by lra. lra.
Qed.

Lemma expUpper_sound (scale : Z) (K : nat) (num den : Z) :
  (0 < scale)%Z -> (0 <= num)%Z -> (0 < den)%Z ->
  (num < den * 2 ^ Z.of_nat K)%Z ->
  exp (IZR num / IZR den) <= IZR (expUpper scale K num den) / IZR scale.
Proof.
  intros Hscale Hnum Hden Hsmall. unfold expUpper. cbv zeta.
  set (D := (den * 2 ^ Z.of_nat K)%Z) in *.
  assert (0 < D)%Z as HD by lia.
  assert (0 < IZR scale) as Hs by by apply IZR_lt.
  assert (0 < IZR den) as Hd by by apply IZR_lt.
  assert (0 < IZR D) as HD' by by apply IZR_lt.
  assert (0 <= IZR num) as Hn by by apply IZR_le.
  assert (IZR num < IZR D) as Hlt by by apply IZR_lt.
  assert (0 < 2 ^ K) as H2K by (apply pow_lt; lra).
  replace (IZR num / IZR den) with (IZR num / IZR D * 2 ^ K).
  2:{ unfold D. rewrite mult_IZR, pow2_IZR. field. lra. }
  apply squarings_upper; [done|].
  assert (0 <= IZR num / IZR D < 1) as Hy.
  { split.
    - apply Rmult_le_pos; [done|]. left. by apply Rinv_0_lt_compat.
    - apply Rmult_lt_reg_r with (IZR D); [done|].
      unfold Rdiv. rewrite Rmult_assoc, Rinv_l by lra. lra. }
  etransitivity; [by apply exp_below_one|].
  set (q := ((scale * D + (D - num) - 1) / (D - num))%Z).
  assert (IZR scale * IZR D <= IZR q * (IZR D - IZR num)) as Hdiv.
  { rewrite <- minus_IZR, <- !mult_IZR. apply IZR_le. unfold q.
    pose proof (Z.div_mod (scale * D + (D - num) - 1) (D - num)
                  ltac:(lia)) as Hdm.
    pose proof (Z.mod_pos_bound (scale * D + (D - num) - 1) (D - num)
                  ltac:(lia)) as Hm.
    nia. }
  apply Rmult_le_reg_r with (IZR scale * (IZR D - IZR num)); [nra|].
  replace (/ (1 - IZR num / IZR D) * (IZR scale * (IZR D - IZR num)))
    with (IZR scale * IZR D) by (field; lra).
  replace (IZR q / IZR scale * (IZR scale * (IZR D - IZR num)))
    with (IZR q * (IZR D - IZR num)) by (field; lra).
  done.
Qed.

Lemma exp_above (scale : Z) (steps : nat) (num den a b : Z) :
  (0 < scale)%Z -> (0 <= num)%Z -> (0 < den)%Z -> (0 < b)%Z ->
  (a * scale < b * expLower scale steps num den)%Z ->
  IZR a / IZR b < exp (IZR num / IZR den).
Proof.
  intros Hscale Hnum Hden Hb Hcheck.
  eapply Rlt_le_trans; [|by apply (expLower_sound scale steps)].
  assert (0 < IZR scale) as Hs by by apply IZR_lt.
  assert (0 < IZR b) as Hb' by by apply IZR_lt.
  apply IZR_lt in Hcheck. rewrite !mult_IZR in Hcheck.
  apply Rmult_lt_reg_r with (IZR b * IZR scale); [nra|].
  replace (IZR a / IZR b * (IZR b * IZR scale)) with (IZR a * IZR scale)
    by (field; lra).
  replace (IZR (expLower scale steps num den) / IZR scale
           * (IZR b * IZR scale))
    with (IZR b * IZR (expLower scale steps num den)) by (field; lra).
  done.
Qed.

Lemma exp_below (scale : Z) (steps : nat) (num den a b : Z) :
  (0 < scale)%Z -> (0 <= num)%Z -> (0 < den)%Z -> (0 < b)%Z ->
  (num < den * 2 ^ Z.of_nat steps)%Z ->
  (b * expUpper scale steps num den < a * scale)%Z ->
  exp (IZR num / IZR den) < IZR a / IZR b.
Proof.
  intros Hscale Hnum Hden Hb Hsmall Hcheck.
  eapply Rle_lt_trans; [by apply (expUpper_sound scale steps), Hsmall|].
  assert (0 < IZR scale) as Hs by by apply IZR_lt.
  assert (0 < IZR b) as Hb' by by apply IZR_lt.
  apply IZR_lt in Hcheck. rewrite !mult_IZR in Hcheck.
  apply Rmult_lt_reg_r with (IZR b * IZR scale); [nra|].
  replace (IZR a / IZR b * (IZR b * IZR scale)) with (IZR a * IZR scale)
    by (field; lra).
  replace (IZR (expUpper scale steps num den) / IZR scale
           * (IZR b * IZR scale))
    with (IZR b * IZR (expUpper scale steps num den)) by (field; lra).
  done.
Qed.

(** [10^m] is above [a / b]: checked on [exp] at [m] times a lower bound
    [A / B] of [ln 10]. *)
Lemma pow10_above (scale : Z) (steps : nat) (A B mn md a b : Z) :
  (0 < scale)%Z -> (0 <= A)%Z -> (0 < B)%Z ->
  IZR A / IZR B <= ln 10 ->
  (0 <= mn)%Z -> (0 < md)%Z -> (0 < b)%Z ->
  (a * scale < b * expLower scale steps (mn * A) (md * B))%Z ->
  IZR a / IZR b < pow10 (IZR mn / IZR md).
Proof.
  intros Hscale HA HB Hln Hmn Hmd Hb Hcheck. unfold pow10, Rpower.
  assert (0 < IZR B) as HB' by by apply IZR_lt.
  assert (0 < IZR md) as Hmd' by by apply IZR_lt.
  assert (0 <= IZR mn) as Hmn' by by apply IZR_le.
  assert (0 <= IZR mn / IZR md) as Hm.
  { apply Rmult_le_pos; [done|]. left. by apply Rinv_0_lt_compat. }
  eapply Rlt_le_trans.
  - apply (exp_above scale steps (mn * A) (md * B) a b); [done|lia|lia|done..].
  - apply exp_le. rewrite !mult_IZR.
    replace (IZR mn * IZR A / (IZR md * IZR B))
      with (IZR mn / IZR md * (IZR A / IZR B)) by (field; lra).
    by apply Rmult_le_compat_l.
Qed.

(** [10^m] is below [a / b]: checked at [m] times an upper bound of
    [ln 10]. *)
Lemma pow10_below (scale : Z) (steps : nat) (A B mn md a b : Z) :
  (0 < scale)%Z -> (0 <= A)%Z -> (0 < B)%Z ->
  ln 10 <= IZR A / IZR B ->
  (0 <= mn)%Z -> (0 < md)%Z -> (0 < b)%Z ->
  (mn * A < md * B * 2 ^ Z.of_nat steps)%Z ->
  (b * expUpper scale steps (mn * A) (md * B) < a * scale)%Z ->
  pow10 (IZR mn / IZR md) < IZR a / IZR b.
Proof.
  intros Hscale HA HB Hln Hmn Hmd Hb Hsmall Hcheck. unfold pow10, Rpower.
  assert (0 < IZR B) as HB' by by apply IZR_lt.
  assert (0 < IZR md) as Hmd' by by apply IZR_lt.
  assert (0 <= IZR mn) as Hmn' by by apply IZR_le.
  assert (0 <= IZR mn / IZR md) as Hm.
  { apply Rmult_le_pos; [done|]. left. by apply Rinv_0_lt_compat. }
  eapply Rle_lt_trans.
  - apply exp_le. apply (Rmult_le_compat_l _ _ _ Hm Hln).
  - replace (IZR mn / IZR md * (IZR A / IZR B))
      with (IZR (mn * A) / IZR (md * B))
      by (rewrite !mult_IZR; field; lra).
    apply (exp_below scale steps); [done|lia|lia|done..].
Qed.

Lemma ln10_lower : IZR ln10Lower / IZR ln10Den <= ln 10.
Proof.
  left. apply exp_lt_inv. rewrite exp_ln by lra.
  replace 10 with (10 / 1) by lra.
  apply (exp_below scale steps); by vm_compute.
Qed.

Lemma ln10_upper : ln 10 <= IZR (ln10Lower + 1) / IZR ln10Den.
Proof.
  left. apply exp_lt_inv. rewrite exp_ln by lra.
  replace 10 with (10 / 1) by lra.
  apply (exp_above scale steps); by vm_compute.
Qed.

End EnclosureFacts.

(** ** Round trip through the logarithmic slider scale *)

Section RoundTrip.
Import JSMath MathUtils Spec Enclosure.

Lemma pow10_lt (x y : R) : x < y -> pow10 x < pow10 y.
Proof.
  intros Hlt. unfold pow10, Rpower. apply exp_increasing.
  pose proof ln10_pos. nra.
Qed.

(** [log10 x] lies on the same side of [y] as [x] of [10^y]. *)
Lemma log10_lt_pow10 (x y : R) : 0 < x -> x < pow10 y -> log10 x < y.
Proof.
  intros Hx Hlt. destruct (Rlt_or_le (log10 x) y) as [|Hge]; [done|].
  apply pow10_le in Hge. rewrite pow10_log10 in Hge by done. lra.
Qed.

Lemma log10_gt_pow10 (x y : R) : 0 < x -> pow10 y < x -> y < log10 x.
Proof.
  intros Hx Hlt. destruct (Rlt_or_le y (log10 x)) as [|Hge]; [done|].
  apply pow10_le in Hge. rewrite pow10_log10 in Hge by done. lra.
Qed.

(** The three numeric facts behind the round trip of 20.5. *)
Lemma pow10_upper_midpoint :
  41 / 2 < pow10 (11815228399705009 / 9007199254740992).
Proof.
  apply (pow10_above scale steps ln10Lower ln10Den);
    [by vm_compute|by vm_compute|by vm_compute|exact ln10_lower
    |by vm_compute..].
Qed.

Lemma pow10_nearest_below :
  pow10 (5907614199852504 / 4503599627370496)
  < 5770237022568447 / 281474976710656.
Proof.
  apply (pow10_below scale steps (ln10Lower + 1) ln10Den);
    [by vm_compute|by vm_compute|by vm_compute|exact ln10_upper
    |by vm_compute..].
Qed.

Lemma pow10_nearest_above :
  11540474045136893 / 562949953421312
  < pow10 (5907614199852504 / 4503599627370496).
Proof.
  apply (pow10_above scale steps ln10Lower ln10Den);
    [by vm_compute|by vm_compute|by vm_compute|exact ln10_lower
    |by vm_compute..].
Qed.

Lemma powerRZ_2_52 : powerRZ 2 52 = 4503599627370496.
Proof. change (powerRZ 2 52) with (2 ^ 52). lra. Qed.

Lemma powerRZ_2_48 : powerRZ 2 48 = 281474976710656.
Proof. change (powerRZ 2 48) with (2 ^ 48). lra. Qed.

Lemma powerRZ_2_m52 : powerRZ 2 (-52) = / 4503599627370496.
Proof. change (powerRZ 2 (-52)) with (/ 2 ^ 52). f_equal. lra. Qed.

Lemma powerRZ_2_m48 : powerRZ 2 (-48) = / 281474976710656.
Proof. change (powerRZ 2 (-48)) with (/ 2 ^ 48). f_equal. lra. Qed.

Lemma clamp_inside (f : R) :
  20 <= f <= 20000 -> Rmax 20 (Rmin 20000 f) = f.
Proof.
  intros [H1 H2]. rewrite Rmin_right by done. by rewrite Rmax_right.
Qed.

Lemma linearToLog_20_5 :
  linearToLog (41 / 2) = 5907614199852504 / 4503599627370496.
Proof.
  unfold linearToLog. rewrite clamp_inside by lra.
  pose proof pow10_upper_midpoint as Hup.
  pose proof pow10_nearest_below as Hlo.
  apply log10_lt_pow10 in Hup; [|lra].
  assert (5907614199852504 / 4503599627370496 < log10 (41 / 2)) as Hlo'.
  { apply log10_gt_pow10; lra. }
  rewrite (double_value _ 0 5907614199852504).
  - change (0 - 52)%Z with (- 52)%Z. by rewrite powerRZ_2_m52.
  - lia.
  - change (powerRZ 2 0) with 1. change (powerRZ 2 (0 + 1)) with (2 ^ 1).
    rewrite Rabs_pos_eq by lra. lra.
  - change (52 - 0)%Z with 52%Z. rewrite powerRZ_2_52. lra.
Qed.

Lemma pow_20_5 :
  double (pow10 (5907614199852504 / 4503599627370496))
  = 5770237022568447 / 281474976710656.
Proof.
  pose proof pow10_nearest_below as Hhi.
  pose proof pow10_nearest_above as Hlo.
  rewrite (double_value _ 4 5770237022568447).
  - change (4 - 52)%Z with (- 48)%Z. by rewrite powerRZ_2_m48.
  - lia.
  - change (powerRZ 2 4) with (2 ^ 4).
    change (powerRZ 2 (4 + 1)) with (2 ^ 5).
    rewrite Rabs_pos_eq by lra. lra.
  - change (52 - 4)%Z with 48%Z. rewrite powerRZ_2_48. lra.
Qed.

(** C9 as stated fails at the half-integer 20.5: [Math.log10] returns the
    double below the logarithm, the power of 10 of that double is below
    20.5 by more than half the distance to the previous double, and
    [logToLinear] returns 20 where [round] gives 21. *)
Lemma round_trip_20_5 :
  20 <= 20.5 <= 20000
  /\ linearToLog 20.5 = 5907614199852504 / 4503599627370496
  /\ logToLinear (linearToLog 20.5) = 20%Z
  /\ round 20.5 = 21%Z
  /\ logToLinear (linearToLog 20.5) <> round 20.5.
Proof.
  replace 20.5 with (41 / 2) by lra.
  assert (logToLinear (linearToLog (41 / 2)) = 20%Z) as Hcode.
  { unfold logToLinear. rewrite linearToLog_20_5, pow_20_5.
    apply floor_unique. lra. }
  assert (round (41 / 2) = 21%Z) as Hround.
  { apply floor_unique. lra. }
  split; [lra|]. split; [apply linearToLog_20_5|].
  split; [done|]. split; [done|]. rewrite Hcode, Hround. done.
Qed.

(** The outcome at 20.5 does not depend on how [Math.pow] rounds: every
    value within one unit in the last place (2^-48) of the exact power
    is rounded to 20. *)
Lemma round_trip_20_5_any_pow (y : R) :
  Rabs (y - pow10 (linearToLog (41 / 2))) <= / 281474976710656 ->
  round y = 20%Z.
Proof.
  rewrite linearToLog_20_5. intros Hy.
  pose proof pow10_nearest_below. pose proof pow10_nearest_above.
  unfold Rabs in Hy. destruct (Rcase_abs _); apply floor_unique; lra.
Qed.

Lemma round_stable (delta x q : R) :
  awayFromTies delta x -> Rabs (q - x) < delta -> round q = round x.
Proof.
  intros Haway Hclose. unfold round.
  destruct (floor_bounds (x + / 2)) as [H1 H2].
  set (n := floor (x + / 2)) in *.
  pose proof (Haway (n - 1)%Z) as Hlow. pose proof (Haway n) as Hhigh.
  rewrite minus_IZR in Hlow.
  rewrite Rabs_pos_eq in Hlow by lra.
  rewrite Rabs_left1 in Hhigh by lra.
  apply Rabs_def2 in Hclose.
  apply floor_unique. lra.
Qed.

Lemma log10_10 : log10 10 = 1.
Proof. unfold log10. field. pose proof ln10_pos. lra. Qed.

Lemma log10_pow (n : nat) : log10 (10 ^ n) = INR n.
Proof.
  unfold log10. rewrite ln_pow by lra. field. pose proof ln10_pos. lra.
Qed.

Lemma Rabs_bounds (a b : R) : Rabs a <= b -> - b <= a <= b.
Proof. unfold Rabs. destruct (Rcase_abs a); lra. Qed.

Lemma exp_near_one (t : R) : Rabs t <= / 2 -> Rabs (exp t - 1) <= 2 * Rabs t.
Proof.
  intros Ht. pose proof (exp_ineq1_le t) as Hlo.
  pose proof (exp_ineq1_le (- t)) as Hhi. rewrite exp_Ropp in Hhi.
  pose proof (exp_pos t) as Hpos.
  apply Rabs_bounds in Ht.
  assert (exp t * (1 - t) <= 1) as Hup.
  { apply Rmult_le_compat_l with (r := exp t) in Hhi; [|lra].
    rewrite Rinv_r in Hhi by lra. lra. }
  apply Rabs_le. destruct (Rle_or_lt 0 t) as [Hge|Hlt].
  - rewrite (Rabs_pos_eq t) by done. split; [lra|]. nra.
  - rewrite (Rabs_left t) by done. split; [lra|]. nra.
Qed.

(** A frequency survives the two conversions up to 10^-10. *)
Lemma round_trip_error (f : R) :
  20 <= f <= 20000 ->
  Rabs (double (pow10 (linearToLog f)) - f) <= / 10 ^ 10.
Proof.
  intros Hf. unfold linearToLog. rewrite clamp_inside by done.
  set (L := log10 f).
  assert (1 <= L <= 5) as HL.
  { split.
    - rewrite <- log10_10. apply log10_le; lra.
    - replace 5 with (INR 5) by (simpl; lra).
      rewrite <- log10_pow. apply log10_le; lra. }
  pose proof (double_error L ltac:(lra)) as Hy.
  set (y := double L) in *.
  pose proof ln10_upper as Hln. pose proof ln10_pos as Hln0.
  assert (ln 10 <= 3) as Hln3.
  { etransitivity; [exact Hln|].
    apply Rmult_le_reg_r with (IZR ln10Den).
    - apply IZR_lt. by vm_compute.
    - unfold Rdiv. rewrite Rmult_assoc, Rinv_l.
      + rewrite Rmult_1_r, <- mult_IZR. apply IZR_le. by vm_compute.
      + apply not_0_IZR. by vm_compute. }
  assert (pow10 y = f * exp ((y - L) * ln 10)) as Hpow.
  { rewrite <- (pow10_log10 f) at 1 by lra. fold L.
    unfold pow10, Rpower. rewrite <- exp_plus. f_equal. lra. }
  assert (Rabs ((y - L) * ln 10) <= 15 / 2 ^ 53) as Ht.
  { rewrite Rabs_mult, (Rabs_pos_eq (ln 10)) by lra.
    pose proof (Rabs_pos (y - L)). nra. }
  pose proof (exp_near_one ((y - L) * ln 10) ltac:(lra)) as Hexp.
  assert (Rabs (pow10 y - f) <= 600000 / 2 ^ 53) as HP.
  { rewrite Hpow.
    replace (f * exp ((y - L) * ln 10) - f)
      with (f * (exp ((y - L) * ln 10) - 1)) by lra.
    rewrite Rabs_mult, (Rabs_pos_eq f) by lra.
    pose proof (Rabs_pos (exp ((y - L) * ln 10) - 1)). nra. }
  apply Rabs_bounds in HP.
  pose proof (double_error (pow10 y) ltac:(lra)) as HQ.
  apply Rabs_bounds in HQ. apply Rabs_le. lra.
Qed.

Lemma integer_awayFromTies (z : Z) : awayFromTies (/ 10 ^ 9) (IZR z).
Proof.
  intros k. destruct (Z_le_gt_dec z k) as [Hle|Hgt].
  - apply IZR_le in Hle. rewrite Rabs_left1 by lra. lra.
  - assert (k + 1 <= z)%Z as Hge by lia. apply IZR_le in Hge.
    rewrite plus_IZR in Hge. rewrite Rabs_pos_eq by lra. lra.
Qed.

Lemma quarter_awayFromTies : awayFromTies (/ 10 ^ 9) 440.25.
Proof.
  intros k. destruct (Z_le_gt_dec 440 k) as [Hle|Hgt].
  - apply IZR_le in Hle. rewrite Rabs_left1 by lra. lra.
  - assert (k + 1 <= 440)%Z as Hge by lia. apply IZR_le in Hge.
    rewrite plus_IZR in Hge. rewrite Rabs_pos_eq by lra. lra.
Qed.

Lemma integer_round_trip (z : Z) :
  (20 <= z <= 20000)%Z ->
  logToLinear (linearToLog (IZR z)) = z.
Proof.
  intros [Hlo Hhi]. apply IZR_le in Hlo, Hhi.
  rewrite <- (round_IZR z) at 2. unfold logToLinear.
  apply (round_stable (/ 10 ^ 9)); [apply integer_awayFromTies|].
  pose proof (round_trip_error (IZR z) ltac:(lra)). lra.
Qed.

(** C9 (as amended): for every frequency [f] in [[20, 20000]] at distance
    at least 10^-9 from every half-integer, so for every integer,
    converting to the log10 scale and back gives [f] rounded to the
    nearest integer: [logToLinear (linearToLog f) = round f]. *)
Theorem logToLinear_linearToLog (f : R) :
  20 <= f <= 20000 -> awayFromTies (/ 10 ^ 9) f ->
  logToLinear (linearToLog f) = round f.
Proof.
  intros Hf Haway. unfold logToLinear.
  apply (round_stable (/ 10 ^ 9)); [done|].
  pose proof (round_trip_error f Hf). lra.
Qed.

Lemma logToLinear_linearToLog_witness :
  20 <= 440.25 <= 20000
  /\ logToLinear (linearToLog 440.25) = 440%Z.
Proof.
  split; [lra|].
  rewrite (logToLinear_linearToLog 440.25);
    [|lra|apply quarter_awayFromTies].
  apply floor_unique. lra.
Defined.

End RoundTrip.

(** ** Reporting bands and session aggregation *)

Section SessionFacts.
Import JSMath ScoreCalculator Spec.

Lemma getFrequencyRange_inBand (f : R) : inBand (getFrequencyRange f) f.
Proof.
  unfold getFrequencyRange, ltb.
  repeat case_bool_decide; simpl; lra.
Qed.

Lemma inBand_unique (f : R) (b1 b2 : Band) :
  inBand b1 f -> inBand b2 f -> b1 = b2.
Proof. destruct b1, b2; simpl; intros; try reflexivity; lra. Qed.

Lemma getFrequencyRange_iff (f : R) (b : Band) :
  getFrequencyRange f = b <-> inBand b f.
Proof.
  split.
  - intros <-. apply getFrequencyRange_inBand.
  - intros Hb. eapply inBand_unique; [apply getFrequencyRange_inBand | done].
Qed.

(** What the inner [forEach] adds to band [b] for one record. *)
Lemma inner_loop_stat (s : Z) (b : Band) (freqs : list R)
    (stats : Band -> RangeStat.t) :
  let stats' :=
    foldl (fun st freq => bump st (getFrequencyRange freq) s) stats freqs in
  let hits := filter (fun f => getFrequencyRange f = b) freqs in
  RangeStat.totalScore (stats' b)
    = (RangeStat.totalScore (stats b) + s * Z.of_nat (length hits))%Z
  /\ RangeStat.count (stats' b)
    = (RangeStat.count (stats b) + length hits)%nat.
Proof.
  revert stats. induction freqs as [|f freqs IH]; intros stats; simpl.
  - split; lia.
  - destruct (IH (bump stats (getFrequencyRange f) s)) as [IHt IHc].
    rewrite IHt, IHc. rewrite filter_cons. unfold bump.
    destruct (decide (b = getFrequencyRange f)) as [->|Hne].
    + rewrite decide_True by done. simpl. split; lia.
    + rewrite decide_False by done. split; lia.
Qed.

Lemma attributed_cons (b : Band) (q : AnswerRecord.t)
    (questions : list AnswerRecord.t) :
  attributed b (q :: questions)
    = replicate (length (filter (fun f => getFrequencyRange f = b) (freqsOf q)))
        (scoreOrZero q)
      ++ attributed b questions.
Proof.
  unfold attributed. rewrite bind_cons. f_equal.
  induction (freqsOf q) as [|f freqs IH]; [done|].
  rewrite bind_cons, filter_cons.
  destruct (decide (getFrequencyRange f = b)); simpl; by rewrite IH.
Qed.

Lemma Zsum_app (l1 l2 : list Z) : Zsum (l1 ++ l2) = (Zsum l1 + Zsum l2)%Z.
Proof. unfold Zsum. induction l1; simpl; lia. Qed.

Lemma Zsum_replicate (n : nat) (z : Z) :
  Zsum (replicate n z) = (z * Z.of_nat n)%Z.
Proof. unfold Zsum. induction n; simpl; lia. Qed.

Lemma collect_from (b : Band) (questions : list AnswerRecord.t)
    (stats : Band -> RangeStat.t) :
  let stats' :=
    foldl (fun rangeStats q =>
             foldl (fun rangeStats freq =>
                      bump rangeStats (getFrequencyRange freq) (scoreOrZero q))
                   rangeStats (freqsOf q))
          stats questions in
  RangeStat.totalScore (stats' b)
    = (RangeStat.totalScore (stats b) + Zsum (attributed b questions))%Z
  /\ RangeStat.count (stats' b)
    = (RangeStat.count (stats b) + length (attributed b questions))%nat.
Proof.
  revert stats. induction questions as [|q questions IH]; intros stats.
  - simpl. split; lia.
  - cbn [foldl]. match goal with
    | |- context [foldl _ (foldl ?g stats ?fs) questions] =>
        destruct (IH (foldl g stats fs)) as [IHt IHc];
        destruct (inner_loop_stat (scoreOrZero q) b fs stats) as [It Ic]
    end.
    rewrite attributed_cons. cbv zeta in *. rewrite IHt, IHc, It, Ic.
    rewrite Zsum_app, Zsum_replicate, length_app, length_replicate.
    split; lia.
Qed.

Lemma collectRangeStats_spec (b : Band) (questions : list AnswerRecord.t) :
  RangeStat.totalScore (collectRangeStats questions b)
    = Zsum (attributed b questions)
  /\ RangeStat.count (collectRangeStats questions b)
    = length (attributed b questions).
Proof.
  destruct (collect_from b questions initialRangeStats) as [Ht Hc].
  unfold collectRangeStats. cbv zeta in Ht, Hc. rewrite Ht, Hc.
  clear Ht Hc. unfold initialRangeStats.
  cbn [RangeStat.totalScore RangeStat.count]. split; lia.
Qed.



Lemma attributed_length_total (questions : list AnswerRecord.t) :
  (length (attributed ultraLow questions) + length (attributed low questions)
   + length (attributed mid questions) + length (attributed highMid questions)
   + length (attributed high questions))%nat
  = length (questions ≫= freqsOf).
Proof.
  induction questions as [|q questions IH]; [done|].
  rewrite !attributed_cons, bind_cons, !length_app, !length_replicate, <- IH.
  assert (forall freqs : list R,
    (length (filter (fun f => getFrequencyRange f = ultraLow) freqs)
     + length (filter (fun f => getFrequencyRange f = low) freqs)
     + length (filter (fun f => getFrequencyRange f = mid) freqs)
     + length (filter (fun f => getFrequencyRange f = highMid) freqs)
     + length (filter (fun f => getFrequencyRange f = high) freqs))%nat
    = length freqs) as Hsplit.
  { induction freqs as [|f freqs IHf]; [done|].
    rewrite !filter_cons.
    destruct (getFrequencyRange f); simpl; lia. }
  rewrite <- (Hsplit (freqsOf q)). lia.
Qed.

End SessionFacts.

Section SessionTheorems.
Import JSMath ScoreCalculator Spec.

(** C10: [getFrequencyRange] is defined on every number and puts each
    boundary in the higher band (100 Hz is [low], 500 Hz is [mid], 2000 Hz
    is [highMid], 8000 Hz is [high]); a frequency is in band [b] exactly
    when it lies in the interval of [b], so it is in exactly one band, and
    in the session aggregation every frequency occurrence is counted in
    exactly one of the five bands. *)
Theorem getFrequencyRange_partition :
  (getFrequencyRange 100 = low /\ getFrequencyRange 500 = mid /\
   getFrequencyRange 2000 = highMid /\ getFrequencyRange 8000 = high)
  /\ (forall f b, getFrequencyRange f = b <-> inBand b f)
  /\ (forall f, exists b, inBand b f /\ forall b', inBand b' f -> b' = b)
  /\ (forall stats f s b,
        RangeStat.count (bump stats (getFrequencyRange f) s b)
        = (RangeStat.count (stats b)
           + if decide (b = getFrequencyRange f) then 1 else 0)%nat)
  /\ (forall questions,
        let n b := RangeStat.count (collectRangeStats questions b) in
        (n ultraLow + n low + n mid + n highMid + n high)%nat
        = length (questions ≫= freqsOf)).
Proof.
  split; [|split; [|split; [|split]]].
  - repeat split; apply getFrequencyRange_iff; simpl; lra.
  - apply getFrequencyRange_iff.
  - intros f. exists (getFrequencyRange f). split.
    + apply getFrequencyRange_inBand.
    + intros b' Hb'. eapply inBand_unique; [done|].
      apply getFrequencyRange_inBand.
  - intros stats f s b. unfold bump.
    destruct (decide (b = getFrequencyRange f)); simpl; lia.
  - intros questions n. subst n. cbv beta.
    rewrite !(proj2 (collectRangeStats_spec _ questions)).
    apply attributed_length_total.
Qed.


End SessionTheorems.

(** ** The scorer *)

Section ScorerFacts.
Import JSMath ScoreCalculator Spec.

Lemma padLoop_spec (fuel n : nat) (u : list R) :
  padLoop fuel n u = u ++ replicate (Nat.min fuel (n - length u)) 1000.
Proof.
  revert u. induction fuel as [|fuel IH]; intros u; simpl.
  - by rewrite app_nil_r.
  - destruct (Nat.ltb_spec (length u) n) as [Hlt|Hge].
    + rewrite IH, length_app. simpl.
      replace (n - length u)%nat with (S (n - (length u + 1))) by lia.
      simpl. by rewrite <- app_assoc.
    + replace (n - length u)%nat with 0%nat by lia.
      by rewrite app_nil_r.
Qed.

Lemma padAnswers_spec (actual answers : list R) :
  padAnswers actual answers
    = answers ++ replicate (length actual - length answers) 1000.
Proof.
  unfold padAnswers. rewrite padLoop_spec. do 2 f_equal. lia.
Qed.

Lemma padAnswers_length (actual answers : list R) :
  length (padAnswers actual answers)
    = Nat.max (length actual) (length answers).
Proof. rewrite padAnswers_spec, length_app, length_replicate. lia. Qed.

Lemma padAnswers_long_enough (actual answers : list R) :
  (length actual <= length answers)%nat -> padAnswers actual answers = answers.
Proof.
  intros Hle. rewrite padAnswers_spec.
  replace (length actual - length answers)%nat with 0%nat by lia.
  apply app_nil_r.
Qed.

Lemma padAnswers_idemp (actual answers : list R) :
  padAnswers actual (padAnswers actual answers) = padAnswers actual answers.
Proof. apply padAnswers_long_enough. rewrite padAnswers_length. lia. Qed.

Lemma sortAscending_perm (l : list R) : sortAscending l ≡ₚ l.
Proof. apply merge_sort_Permutation. Qed.




Lemma matchedAnswers_length (actual answers : list R) (b : bool) :
  length (matchedAnswers actual answers b)
    = Nat.max (length actual) (length answers).
Proof.
  unfold matchedAnswers. destruct (_ && _).
  - by rewrite sortAscending_perm, padAnswers_length.
  - apply padAnswers_length.
Qed.

(** Every [userAnswers[index]] read by [calculateMultiScore] finds an
    answer: the default of the total lookup in [pairErrors] is never used. *)
Lemma matchedAnswers_read (actual answers : list R) (b : bool)
    (index : nat) :
  (index < length actual)%nat ->
  is_Some (matchedAnswers actual answers b !! index).
Proof.
  intros Hi. apply lookup_lt_is_Some. rewrite matchedAnswers_length. lia.
Qed.

Lemma pairErrors_zip (actual answers : list R) :
  (length actual <= length answers)%nat ->
  pairErrors actual answers
    = zip_with MathUtils.calculateError actual answers.
Proof.
  unfold pairErrors. revert answers.
  induction actual as [|a actual IH]; intros answers Hlen; [done|].
  destruct answers as [|u answers]; simpl in Hlen; [lia|].
  rewrite imap_cons. simpl. f_equal.
  rewrite <- IH by lia. apply imap_ext. done.
Qed.

Lemma calculateError_positive (a u : R) :
  0 < a -> MathUtils.calculateError a u = Rabs (a - u) / a.
Proof.
  intros Ha. unfold MathUtils.calculateError.
  rewrite decide_False by lra. done.
Qed.

Lemma calculateError_nonneg (a u : R) :
  0 <= a -> 0 <= MathUtils.calculateError a u.
Proof.
  intros Ha. unfold MathUtils.calculateError.
  destruct (decide (a = 0)); [lra|].
  apply Rmult_le_pos; [apply Rabs_pos|].
  left. apply Rinv_0_lt_compat. lra.
Qed.

Lemma zip_errors_positive (actual answers : list R) :
  Forall (fun a => 0 < a) actual ->
  zip_with MathUtils.calculateError actual answers
    = relativeErrors actual answers.
Proof.
  unfold relativeErrors. intros Hpos. revert answers.
  induction Hpos as [|a actual Ha _ IH]; intros [|u answers]; try done.
  simpl. by rewrite IH, calculateError_positive.
Qed.

Lemma foldl_Rplus (l : list R) (acc : R) :
  foldl Rplus acc l = acc + Rsum l.
Proof.
  revert acc. induction l as [|x l IH]; intros acc; simpl.
  - lra.
  - rewrite IH. unfold Rsum. simpl. lra.
Qed.

Lemma average_mean (l : list R) : average l = mean l.
Proof.
  unfold average, mean. destruct l as [|x l]; [done|].
  rewrite decide_False by done. rewrite foldl_Rplus. f_equal. lra.
Qed.

Lemma Rsum_nonneg (l : list R) : Forall (fun x => 0 <= x) l -> 0 <= Rsum l.
Proof.
  unfold Rsum. induction 1; simpl; lra.
Qed.

Lemma expScore_range (e : R) : (0 <= expScore e <= 100)%Z.
Proof. unfold expScore. lia. Qed.

Lemma expScore_antitone (e1 e2 : R) :
  e1 <= e2 -> (expScore e2 <= expScore e1)%Z.
Proof.
  intros He. unfold expScore.
  assert (round (100 * exp (- 5 * e2)) <= round (100 * exp (- 5 * e1)))%Z.
  { apply round_mono. apply Rmult_le_compat_l; [lra|]. apply exp_le. lra. }
  lia.
Qed.

(** Without the clamp the value is already between 0 and 100 when the
    error is not negative. *)
Lemma expScore_unclamped (e : R) :
  0 <= e -> expScore e = round (100 * exp (- 5 * e)).
Proof.
  intros He. unfold expScore.
  assert (0 <= round (100 * exp (- 5 * e)) <= 100)%Z; [|lia].
  apply round_between. pose proof (exp_pos (- 5 * e)).
  assert (exp (- 5 * e) <= exp 0) by (apply exp_le; lra).
  rewrite exp_0 in *. lra.
Qed.

Lemma tierOf_antitone (e1 e2 : R) :
  e1 <= e2 -> (tierRank (tierOf e2) <= tierRank (tierOf e1))%nat.
Proof.
  intros He. unfold tierOf.
  repeat case_decide; simpl; try lia; lra.
Qed.

Lemma gradeOf_tier (e : R) : gradeOf (Some e) = tierText (tierOf e).
Proof.
  unfold gradeOf, tierOf, nan_ltb, ltb.
  repeat case_bool_decide; repeat case_decide; try reflexivity; lra.
Qed.

End ScorerFacts.

(** ** Numeric bounds on the exponential *)

Section ExpBounds.
Import JSMath.

Lemma exp_double (x : R) : exp (2 * x) = exp x * exp x.
Proof. replace (2 * x) with (x + x) by lra. apply exp_plus. Qed.

Lemma exp_double_lower (x a b : R) :
  0 <= a -> a <= exp x -> b <= a * a -> b <= exp (2 * x).
Proof. intros Ha Hx Hb. rewrite exp_double. nra. Qed.

(** [0.219 <= e^(-3/2)], from [1 + x <= e^x] at [x = -3/128] and six
    squarings. *)
Lemma exp_minus_three_halves_lower : 0.219 <= exp (- (3 / 2)).
Proof.
  assert (0.9765625 <= exp (- (3 / 128))) as H7
    by (pose proof (exp_ineq1_le (- (3 / 128))); lra).
  assert (0.953674 <= exp (- (3 / 64))) as H6.
  { replace (- (3 / 64)) with (2 * - (3 / 128)) by lra.
    eapply exp_double_lower; [|exact H7|]; lra. }
  assert (0.909494 <= exp (- (3 / 32))) as H5.
  { replace (- (3 / 32)) with (2 * - (3 / 64)) by lra.
    eapply exp_double_lower; [|exact H6|]; lra. }
  assert (0.827179 <= exp (- (3 / 16))) as H4.
  { replace (- (3 / 16)) with (2 * - (3 / 32)) by lra.
    eapply exp_double_lower; [|exact H5|]; lra. }
  assert (0.684225 <= exp (- (3 / 8))) as H3.
  { replace (- (3 / 8)) with (2 * - (3 / 16)) by lra.
    eapply exp_double_lower; [|exact H4|]; lra. }
  assert (0.468163 <= exp (- (3 / 4))) as H2.
  { replace (- (3 / 4)) with (2 * - (3 / 8)) by lra.
    eapply exp_double_lower; [|exact H3|]; lra. }
  replace (- (3 / 2)) with (2 * - (3 / 4)) by lra.
  eapply exp_double_lower; [|exact H2|]; lra.
Qed.

(** [4.4619 <= e^(3/2)], from [1 + x <= e^x] at [x = 3/512] and eight
    squarings. *)
Lemma exp_three_halves_lower : 4.4619 <= exp (3 / 2).
Proof.
  assert (1.005859375 <= exp (3 / 512)) as H9
    by (pose proof (exp_ineq1_le (3 / 512)); lra).
  assert (1.011753 <= exp (3 / 256)) as H8.
  { replace (3 / 256) with (2 * (3 / 512)) by lra.
    eapply exp_double_lower; [|exact H9|]; lra. }
  assert (1.023644 <= exp (3 / 128)) as H7.
  { replace (3 / 128) with (2 * (3 / 256)) by lra.
    eapply exp_double_lower; [|exact H8|]; lra. }
  assert (1.047847 <= exp (3 / 64)) as H6.
  { replace (3 / 64) with (2 * (3 / 128)) by lra.
    eapply exp_double_lower; [|exact H7|]; lra. }
  assert (1.097983 <= exp (3 / 32)) as H5.
  { replace (3 / 32) with (2 * (3 / 64)) by lra.
    eapply exp_double_lower; [|exact H6|]; lra. }
  assert (1.205566 <= exp (3 / 16)) as H4.
  { replace (3 / 16) with (2 * (3 / 32)) by lra.
    eapply exp_double_lower; [|exact H5|]; lra. }
  assert (1.453389 <= exp (3 / 8)) as H3.
  { replace (3 / 8) with (2 * (3 / 16)) by lra.
    eapply exp_double_lower; [|exact H4|]; lra. }
  assert (2.112339 <= exp (3 / 4)) as H2.
  { replace (3 / 4) with (2 * (3 / 8)) by lra.
    eapply exp_double_lower; [|exact H3|]; lra. }
  replace (3 / 2) with (2 * (3 / 4)) by lra.
  eapply exp_double_lower; [|exact H2|]; lra.
Qed.

Lemma exp_minus_three_halves_upper : exp (- (3 / 2)) <= 0.2242.
Proof.
  pose proof exp_three_halves_lower as Hlo.
  assert (exp (- (3 / 2)) * exp (3 / 2) = 1) as Hinv.
  { rewrite <- exp_plus. replace (- (3 / 2) + 3 / 2) with 0 by lra.
    apply exp_0. }
  pose proof (exp_pos (- (3 / 2))). nra.
Qed.

(** [Math.round(100 * Math.exp(-1.5))] is 22. *)
Lemma round_score_three_tenths : round (100 * exp (- (3 / 2))) = 22%Z.
Proof.
  pose proof exp_minus_three_halves_lower.
  pose proof exp_minus_three_halves_upper.
  apply floor_unique. lra.
Qed.

End ExpBounds.

(** ** Theorems about the scorer *)

Section ScorerTheorems.
Import JSMath ScoreCalculator Spec.

Lemma calculateMultiScore_fields (actual answers : list R) (b : bool) :
  let r := calculateMultiScore actual answers b in
  let avg := averageError actual answers b in
  Result.score r = scoreOf avg
  /\ Result.grade r = gradeOf avg
  /\ Result.avgError r = (fun e => e * 100) <$> avg
  /\ Result.isCorrect r = scoreAtLeast60 (scoreOf avg).
Proof. done. Qed.

Lemma scoreOf_expScore (avg : option R) : scoreOf avg = expScore <$> avg.
Proof. done. Qed.

Lemma averageError_unsorted (actual answers : list R) :
  Forall (fun a => 0 < a) actual ->
  length answers = length actual ->
  averageError actual answers false = mean (relativeErrors actual answers).
Proof.
  intros Hpos Hlen. unfold averageError, matchedAnswers.
  rewrite padAnswers_long_enough by lia. simpl.
  rewrite pairErrors_zip by lia.
  by rewrite zip_errors_positive, average_mean.
Qed.


Lemma relativeErrors_nonneg (actual answers : list R) :
  Forall (fun a => 0 < a) actual ->
  Forall (fun x => 0 <= x) (relativeErrors actual answers).
Proof.
  unfold relativeErrors. intros Hpos. revert answers.
  induction Hpos as [|a actual Ha _ IH]; intros [|u answers]; simpl;
    try by constructor.
  constructor; [|apply IH].
  apply Rmult_le_pos; [apply Rabs_pos|].
  left. by apply Rinv_0_lt_compat.
Qed.

Lemma tierOf_three_tenths : tierOf 0.3 = NeedsPractice.
Proof. unfold tierOf. repeat case_decide; try reflexivity; lra. Qed.

Lemma tierOf_zero : tierOf 0 = Perfect.
Proof. unfold tierOf. repeat case_decide; try reflexivity; lra. Qed.

Lemma expScore_zero : expScore 0 = 100%Z.
Proof.
  unfold expScore. replace (- 5 * 0) with 0 by lra.
  rewrite exp_0. replace (100 * 1) with (IZR 100) by lra.
  by rewrite round_IZR.
Qed.

Lemma expScore_three_tenths : expScore 0.3 = 22%Z.
Proof.
  unfold expScore. replace (- 5 * 0.3) with (- (3 / 2)) by lra.
  by rewrite round_score_three_tenths.
Qed.

Lemma Rabs_diff (a u : R) : u <= a -> Rabs (a - u) = a - u.
Proof. intros. apply Rabs_pos_eq. lra. Qed.

Lemma Rabs_diff_neg (a u : R) : a <= u -> Rabs (a - u) = u - a.
Proof. intros. rewrite Rabs_minus_sym. apply Rabs_pos_eq. lra. Qed.

(** C1: for positive actual frequencies and as many answers,
    [calculateMultiScore] returns [round(100 * e^(-5 * averageError))]
    clamped to [[0, 100]], where [averageError] is the mean over the
    positional pairs of [|actual - answer| / actual] (with no pair at all
    both are [NaN]); [[1000]] against [[1000]] gives error 0, score 100 and
    the top grade, [[1000]] against [[1300]] gives error 0.30, score 22 and
    the bottom grade. *)
Theorem calculateMultiScore_formula :
  (forall actual answers : list R,
     Forall (fun a => 0 < a) actual ->
     length answers = length actual ->
     let r := calculateMultiScore actual answers false in
     let avg := mean (relativeErrors actual answers) in
     averageError actual answers false = avg
     /\ Result.score r = expScore <$> avg
     /\ Result.avgError r = (fun e => e * 100) <$> avg
     /\ (actual <> [] ->
         exists e s, avg = Some e /\ 0 <= e
           /\ Result.score r = Some s /\ (0 <= s <= 100)%Z
           /\ s = round (100 * exp (- 5 * e))))
  /\ (let r := calculateMultiScore [1000] [1000] false in
      averageError [1000] [1000] false = Some 0
      /\ Result.score r = Some 100%Z
      /\ Result.grade r = tierText Perfect)
  /\ (let r := calculateMultiScore [1000] [1300] false in
      averageError [1000] [1300] false = Some 0.3
      /\ Result.score r = Some 22%Z
      /\ Result.grade r = tierText NeedsPractice).
Proof.
  split; [|split].
  - intros actual answers Hpos Hlen r avg.
    destruct (calculateMultiScore_fields actual answers false)
      as (Hs & _ & Ha & _).
    fold r in Hs, Ha.
    rewrite averageError_unsorted in Hs, Ha by done. fold avg in Hs, Ha.
    split; [by apply averageError_unsorted|].
    split; [done|]. split; [done|].
    intros Hne. subst avg.
    pose proof (relativeErrors_nonneg actual answers Hpos) as Hnn.
    assert (length (relativeErrors actual answers) = length actual) as Hrl.
    { unfold relativeErrors. rewrite length_zip_with. lia. }
    destruct (relativeErrors actual answers) as [|x l] eqn:Hrel.
    { destruct actual; [done|simpl in Hrl; lia]. }
    set (e := Rsum (x :: l) / INR (length (x :: l))).
    assert (0 <= e) as He.
    { apply Rmult_le_pos; [by apply Rsum_nonneg|].
      left. apply Rinv_0_lt_compat. apply lt_0_INR. simpl. lia. }
    exists e, (expScore e). split; [done|]. split; [done|].
    split; [by rewrite Hs|]. split; [apply expScore_range|].
    by apply expScore_unclamped.
  - cbv zeta.
    assert (averageError [1000] [1000] false = Some 0) as Havg.
    { rewrite averageError_unsorted by (repeat constructor; lra).
      unfold mean, relativeErrors, Rsum.
      cbn [zip_with foldr length]. change (INR 1) with 1.
      rewrite Rabs_diff by lra. f_equal. lra. }
    destruct (calculateMultiScore_fields [1000] [1000] false)
      as (Hs & Hg & _).
    cbv zeta in Hs, Hg. rewrite Havg in Hs, Hg.
    split; [done|]. split.
    + rewrite Hs, scoreOf_expScore. simpl. by rewrite expScore_zero.
    + by rewrite Hg, gradeOf_tier, tierOf_zero.
  - cbv zeta.
    assert (averageError [1000] [1300] false = Some 0.3) as Havg.
    { rewrite averageError_unsorted by (repeat constructor; lra).
      unfold mean, relativeErrors, Rsum.
      cbn [zip_with foldr length]. change (INR 1) with 1.
      rewrite Rabs_diff_neg by lra. f_equal. lra. }
    destruct (calculateMultiScore_fields [1000] [1300] false)
      as (Hs & Hg & _).
    cbv zeta in Hs, Hg. rewrite Havg in Hs, Hg.
    split; [done|]. split.
    + rewrite Hs, scoreOf_expScore.
      change (expScore <$> Some 0.3) with (Some (expScore 0.3)).
      by rewrite expScore_three_tenths.
    + by rewrite Hg, gradeOf_tier, tierOf_three_tenths.
Qed.




(** C7: an answer list shorter than the list of actual frequencies is
    extended with 1000 until the lengths are equal and is then scored as
    the extended list would be; every positional read finds an answer and
    the score is a number between 0 and 100. *)
Theorem short_answers_padded (actual answers : list R) (sortAnswers : bool) :
  (length answers < length actual)%nat ->
  let padded :=
    answers ++ replicate (length actual - length answers) 1000 in
  padAnswers actual answers = padded
  /\ length padded = length actual
  /\ calculateMultiScore actual answers sortAnswers
     = calculateMultiScore actual padded sortAnswers
  /\ (forall index, (index < length actual)%nat ->
        is_Some (matchedAnswers actual answers sortAnswers !! index))
  /\ (exists s,
        Result.score (calculateMultiScore actual answers sortAnswers) = Some s
        /\ (0 <= s <= 100)%Z).
Proof.
  intros Hshort padded.
  assert (padAnswers actual answers = padded) as Hpad
    by apply padAnswers_spec.
  split; [done|].
  split; [subst padded; rewrite length_app, length_replicate; lia|].
  split.
  { unfold calculateMultiScore, matchedAnswers.
    by rewrite <- Hpad, padAnswers_idemp. }
  split.
  { intros index Hi. apply lookup_lt_is_Some.
    rewrite matchedAnswers_length. lia. }
  destruct (calculateMultiScore_fields actual answers sortAnswers)
    as (Hs & _).
  cbv zeta in Hs. rewrite Hs, scoreOf_expScore.
  unfold averageError, average.
  rewrite decide_False.
  - eexists. split; [reflexivity|]. apply expScore_range.
  - unfold pairErrors. rewrite length_imap. lia.
Qed.

Lemma short_answers_padded_witness :
  (length [440] < length [440; 880])%nat
  /\ padAnswers [440; 880] [440] = [440; 1000]
  /\ calculateMultiScore [440; 880] [440] false
     = calculateMultiScore [440; 880] [440; 1000] false.
Proof.
  assert (length [440] < length [440; 880])%nat as Hshort by (simpl; lia).
  destruct (short_answers_padded [440; 880] [440] false Hshort)
    as (Hpad & _ & Hscore & _).
  split; [exact Hshort|]. split; [exact Hpad|exact Hscore].
Defined.

(** C8: the grade is determined by the average error through the
    thresholds 0.01, 0.05, 0.10 and 0.20; score and grade both never
    improve when the error grows, so a better grade never comes with a
    lower score; [isCorrect] holds exactly when the score is at least 60. *)
Theorem grade_score_consistent :
  (forall (actual answers : list R) (sortAnswers : bool),
     let r := calculateMultiScore actual answers sortAnswers in
     match averageError actual answers sortAnswers with
     | Some e =>
         Result.grade r = tierText (tierOf e)
         /\ Result.score r = Some (expScore e)
         /\ (Result.isCorrect r = true <-> (60 <= expScore e)%Z)
     | None =>
         Result.grade r = tierText NeedsPractice
         /\ Result.score r = None
         /\ Result.isCorrect r = false
     end)
  /\ (forall e,
        (e < 0.01 -> tierOf e = Perfect)
        /\ (0.01 <= e < 0.05 -> tierOf e = Excellent)
        /\ (0.05 <= e < 0.10 -> tierOf e = Good)
        /\ (0.10 <= e < 0.20 -> tierOf e = Close)
        /\ (0.20 <= e -> tierOf e = NeedsPractice))
  /\ (forall e1 e2,
        e1 <= e2 ->
        (expScore e2 <= expScore e1)%Z
        /\ (tierRank (tierOf e2) <= tierRank (tierOf e1))%nat)
  /\ (forall e1 e2,
        (tierRank (tierOf e1) < tierRank (tierOf e2))%nat ->
        (expScore e1 <= expScore e2)%Z)
  /\ (forall t1 t2, tierText t1 = tierText t2 -> t1 = t2).
Proof.
  split; [|split; [|split; [|split]]].
  - intros actual answers sortAnswers r.
    destruct (calculateMultiScore_fields actual answers sortAnswers)
      as (Hs & Hg & _ & Hc).
    fold r in Hs, Hg, Hc.
    destruct (averageError actual answers sortAnswers) as [e|].
    + rewrite Hs, Hg, Hc, gradeOf_tier. simpl.
      split; [done|]. split; [done|].
      fold (expScore e). rewrite Z.leb_le. done.
    + rewrite Hs, Hg, Hc. done.
  - intros e. unfold tierOf.
    repeat split; intros; repeat case_decide; try reflexivity; lra.
  - intros e1 e2 He. split.
    + by apply expScore_antitone.
    + by apply tierOf_antitone.
  - intros e1 e2 Hrank.
    destruct (Rle_lt_dec e1 e2) as [Hle|Hlt].
    + pose proof (tierOf_antitone e1 e2 Hle). lia.
    + apply expScore_antitone. lra.
  - intros [] []; simpl; intros Heq; try reflexivity; discriminate Heq.
Qed.

End ScorerTheorems.

(** ** Effects: rules *)

Section HoareRules.
Import Eff Hoare.

Lemma wp_ret {A} (a : A) (s : State) (Q : A -> State -> Prop) :
  Q a s -> wp (ret a) s Q.
Proof. done. Qed.

Lemma wp_bind {A B} (m : M A) (k : A -> M B) (s : State)
    (Q : B -> State -> Prop) :
  wp m s (fun a s' => wp (k a) s' Q) -> wp (bind m k) s Q.
Proof. unfold wp, bind. by destruct (m s). Qed.

Lemma wp_mono {A} (m : M A) (s : State) (P Q : A -> State -> Prop) :
  wp m s P -> (forall a s', P a s' -> Q a s') -> wp m s Q.
Proof. unfold wp. destruct (m s); [|done]. intros HP HPQ. by apply HPQ. Qed.

Lemma wp_mono_run {A} (m : M A) (s : State) (P Q : A -> State -> Prop) :
  wp m s P ->
  (forall a s', m s = Return a s' -> P a s' -> Q a s') ->
  wp m s Q.
Proof.
  unfold wp. destruct (m s) as [a s'|]; [|done].
  intros HP HPQ. by apply HPQ.
Qed.

Lemma wp_returns {A} (m : M A) (s : State) (Q : A -> State -> Prop) :
  wp m s Q <-> exists a s', m s = Return a s' /\ Q a s'.
Proof.
  unfold wp. split.
  - destruct (m s) as [a s'|]; [|done]. intros HQ. by exists a, s'.
  - intros (a & s' & -> & HQ). done.
Qed.

Lemma wp_mathRandom (s : State) (Q : R -> State -> Prop) :
  Q (entropy s 0%nat)
    {| entropy := fun i => entropy s (S i);
       usedFrequencies := usedFrequencies s |} ->
  wp mathRandom s Q.
Proof. done. Qed.

Lemma unit_interval_shift (s : State) (used : gset (option Z)) :
  unit_interval s ->
  unit_interval {| entropy := fun i => entropy s (S i);
                   usedFrequencies := used |}.
Proof. intros Hs i. apply Hs. Qed.

Lemma unit_interval_same_entropy (s : State) (used : gset (option Z)) :
  unit_interval s ->
  unit_interval {| entropy := entropy s; usedFrequencies := used |}.
Proof. intros Hs i. apply Hs. Qed.

End HoareRules.

(** ** Sampling *)

Section SamplingFacts.
Import JSMath Eff Hoare.

Lemma log_interpolation (lo hi u : R) :
  0 < lo -> lo <= hi -> 0 <= u < 1 ->
  lo <= pow10 (log10 lo + u * (log10 hi - log10 lo)) <= hi.
Proof.
  intros Hlo Hhi [Hu0 Hu1].
  pose proof (log10_le lo hi Hlo Hhi) as Hlog.
  rewrite <- (pow10_log10 lo) at 1 by lra.
  rewrite <- (pow10_log10 hi) at 3 by lra.
  split; apply pow10_le; nra.
Qed.

(** A sampled frequency lies in the band it is drawn from. *)
Lemma wp_randomLogFreq (lo hi : Z) (s : State) :
  unit_interval s -> (0 < lo <= hi)%Z ->
  wp (MathUtils.randomLogFreq (IZR lo) (IZR hi)) s
     (fun f s' => (lo <= f <= hi)%Z
                  /\ unit_interval s'
                  /\ usedFrequencies s' = usedFrequencies s).
Proof.
  intros Hs [Hlo Hhi]. unfold MathUtils.randomLogFreq.
  apply wp_bind, wp_mathRandom, wp_ret.
  split; [|split; [by apply unit_interval_shift|done]].
  apply round_between. apply log_interpolation.
  - by apply IZR_lt.
  - by apply IZR_le.
  - apply Hs.
Qed.

Lemma floor_scaled_index (u : R) (n : nat) :
  0 <= u < 1 -> (0 < n)%nat ->
  (0 <= floor (u * INR n) < Z.of_nat n)%Z.
Proof.
  intros [Hu0 Hu1] Hn.
  assert (0 < INR n) by (apply lt_0_INR; lia).
  split.
  - apply floor_ge. simpl. nra.
  - apply floor_lt. rewrite <- INR_IZR_INZ. nra.
Qed.

Lemma arrayGet_in_range {A} (arr : list A) (k : Z) :
  (0 <= k < Z.of_nat (length arr))%Z ->
  exists x, MathUtils.arrayGet arr k = Some x /\ arr !! Z.to_nat k = Some x.
Proof.
  intros Hk. unfold MathUtils.arrayGet. rewrite decide_True by lia.
  destruct (lookup_lt_is_Some_2 arr (Z.to_nat k)) as [x Hx]; [lia|].
  by exists x.
Qed.

(** Fisher-Yates returns a permutation of its argument. *)
Lemma wp_shuffleLoop {A} (i : nat) (result : list A) (s : State) :
  unit_interval s -> (i < length result \/ i = 0)%nat ->
  wp (MathUtils.shuffleLoop i result) s
     (fun result' s' => result' ≡ₚ result
                        /\ unit_interval s'
                        /\ usedFrequencies s' = usedFrequencies s).
Proof.
  revert result s. induction i as [|i IH]; intros result s Hs Hi.
  - by apply wp_ret.
  - cbn [MathUtils.shuffleLoop].
    apply wp_bind, wp_mathRandom, wp_bind.
    set (u := entropy s 0%nat).
    assert (0 <= u < 1) as Hu by apply Hs.
    assert (0 <= floor (u * (INR (S i) + 1)) < Z.of_nat (S (S i)))%Z as Hj.
    { replace (INR (S i) + 1) with (INR (S (S i))) by (rewrite (S_INR (S i)); lra).
      apply floor_scaled_index; [done|lia]. }
    destruct (arrayGet_in_range result (floor (u * (INR (S i) + 1))))
      as (atJ & HgetJ & HatJ); [lia|].
    destruct (lookup_lt_is_Some_2 result (S i)) as [atI HatI]; [lia|].
    unfold MathUtils.swap. rewrite HgetJ, HatI.
    apply wp_ret.
    eapply wp_mono.
    + apply IH; [by apply unit_interval_shift|].
      rewrite !length_insert. lia.
    + simpl. intros result' s' (Hperm & Hs' & Hused).
      split; [|done].
      rewrite Hperm. by apply Permutation_insert_swap.
Qed.

Lemma wp_shuffle {A} (array : list A) (s : State) :
  unit_interval s ->
  wp (MathUtils.shuffle array) s
     (fun result s' => result ≡ₚ array
                       /\ unit_interval s'
                       /\ usedFrequencies s' = usedFrequencies s).
Proof.
  intros Hs. unfold MathUtils.shuffle. apply wp_shuffleLoop; [done|].
  destruct array; simpl; lia.
Qed.

End SamplingFacts.

(** ** The retry loop *)

Section RetryLoop.
Import JSMath Eff Hoare QuestionGenerator.

Lemma attemptLoop_step (remaining : nat) (config : Config) (range : Range)
    (frequencies : list Z) (s : State) :
  let f := candidate range (entropy s 0%nat) in
  attemptLoop remaining config range frequencies s
  = if negb (tooClose config frequencies f)
       && negb (bool_decide (Some f ∈ usedFrequencies s))
    then Return (f, true) (advance 1 s)
    else match remaining with
         | O => Return (f, false) (advance 1 s)
         | S remaining' =>
             attemptLoop remaining' config range frequencies (advance 1 s)
         end.
Proof.
  destruct remaining; cbn [attemptLoop];
    unfold MathUtils.randomLogFreq, bind, mathRandom, ret, setHas;
    cbn [usedFrequencies]; fold (candidate range (entropy s 0%nat));
    by destruct (negb _ && negb _).
Qed.

(** When the retry loop returns without [break], it has drawn
    [remaining + 1] candidates (100 for the call made by
    [generateQuestion]), none of them passed the check, and the one
    returned is the last. *)
Lemma attemptLoop_exhausted (remaining : nat) (config : Config)
    (range : Range) (frequencies : list Z) (s s' : State) (f : Z) :
  attemptLoop remaining config range frequencies s = Return (f, false) s' ->
  (forall i, entropy s' i = entropy s (S remaining + i)%nat)
  /\ usedFrequencies s' = usedFrequencies s
  /\ f = candidate range (entropy s remaining)
  /\ forall k, (k <= remaining)%nat ->
       ~ passes config frequencies s (candidate range (entropy s k)).
Proof.
  revert s. induction remaining as [|remaining IH]; intros s;
    rewrite attemptLoop_step; cbv zeta;
    destruct (negb _ && negb _) eqn:Hcheck; try done.
  - intros [= <- <-]. split; [done|]. split; [done|]. split; [done|].
    intros k Hk [Hclose Hused]. replace k with 0%nat in * by lia.
    rewrite Hclose in Hcheck. simpl in Hcheck.
    apply negb_false_iff, bool_decide_eq_true in Hcheck. done.
  - intros Hrun. destruct (IH _ Hrun) as (Hent & Hused & Hf & Hfail).
    split; [intros i; rewrite Hent; simpl; f_equal; lia|].
    split; [done|]. split; [done|].
    intros [|k] Hk [Hclose Hfresh].
    + rewrite Hclose in Hcheck. simpl in Hcheck.
      apply negb_false_iff, bool_decide_eq_true in Hcheck. done.
    + apply (Hfail k); [lia|]. by split.
Qed.

End RetryLoop.

(** ** Question generation *)

Section GeneratorFacts.
Import JSMath Eff Hoare QuestionGenerator Spec BatchSpec.

(** Every generation band has [0 < min < max] and lies in [[20, 20000]]. *)
Lemma ranges_valid (name : string) (range : Range) :
  (name, range) ∈ FREQUENCY_RANGES ->
  (20 <= min range < max range)%Z /\ (max range <= 20000)%Z.
Proof.
  unfold FREQUENCY_RANGES. rewrite !elem_of_cons, elem_of_nil.
  intros H. repeat destruct H as [H|H]; try done;
    injection H as _ ->; simpl; lia.
Qed.

Lemma inGenerationBand_bounds (f : Z) :
  inGenerationBand f -> (20 <= f <= 20000)%Z.
Proof.
  intros (name & range & Hin & Hf).
  pose proof (ranges_valid name range Hin). lia.
Qed.

Lemma wp_chooseRange (s : State) :
  unit_interval s ->
  wp chooseRange s
     (fun range s' => (exists name, (name, range) ∈ FREQUENCY_RANGES)
                      /\ unit_interval s'
                      /\ usedFrequencies s' = usedFrequencies s).
Proof.
  intros Hs. unfold chooseRange.
  apply wp_bind, wp_mathRandom.
  set (u := entropy s 0%nat).
  assert (0 <= u < 1) as Hu by apply Hs.
  pose proof (floor_scaled_index u (length (FREQUENCY_RANGES.*1)) Hu) as Hk.
  destruct (arrayGet_in_range (FREQUENCY_RANGES.*1)
              (floor (u * INR (length (FREQUENCY_RANGES.*1)))))
    as (rangeName & -> & Hname); [apply Hk; simpl; lia|].
  apply list_elem_of_lookup_2 in Hname.
  apply list_elem_of_fmap in Hname as ([name range] & -> & Hin).
  cbn [fst].
  assert (property FREQUENCY_RANGES name = Some range) as ->.
  { revert Hin. unfold FREQUENCY_RANGES. rewrite !elem_of_cons, elem_of_nil.
    intros H. repeat destruct H as [H|H]; try done;
      injection H as -> ->; reflexivity. }
  apply wp_ret. split; [by exists name|].
  split; [by apply unit_interval_shift|done].
Qed.

Lemma tooClose_false (config : Config) (frequencies : list Z) (f : Z) :
  tooClose config frequencies f = false ->
  forall g, g ∈ frequencies ->
    gapRespected (minFreqGap config) g f
    /\ gapRespected (minFreqGap config) f g.
Proof.
  unfold tooClose, gapRespected. intros Hclose g Hg.
  assert (ltb (IZR (Z.max g f) / IZR (Z.min g f)) (minFreqGap config)
          = false) as Hratio.
  { apply not_true_is_false. intros Htrue.
    assert (existsb (fun f0 =>
              ltb (IZR (Z.max f0 f) / IZR (Z.min f0 f)) (minFreqGap config))
              frequencies = true) as Hex.
    { apply existsb_exists. exists g. split; [|done].
      by apply list_elem_of_In. }
    congruence. }
  unfold ltb in Hratio. apply bool_decide_eq_false in Hratio.
  rewrite (Z.max_comm f g), (Z.min_comm f g). lra.
Qed.

(** The retry loop: the candidate it returns is in the band, and when the
    loop was left through [break] the candidate passed both checks. *)
Lemma wp_attemptLoop (remaining : nat) (config : Config) (range : Range)
    (frequencies : list Z) (s : State) :
  unit_interval s -> (0 < min range <= max range)%Z ->
  wp (attemptLoop remaining config range frequencies) s
     (fun '(f, accepted) s' =>
        (min range <= f <= max range)%Z
        /\ unit_interval s'
        /\ usedFrequencies s' = usedFrequencies s
        /\ (accepted = true ->
            tooClose config frequencies f = false
            /\ Some f ∉ usedFrequencies s)).
Proof.
  intros Hs Hrange. revert s Hs.
  assert (forall f s1 (k : M (Z * bool)) (Q : Z * bool -> State -> Prop),
    (negb (tooClose config frequencies f)
     && negb (bool_decide (Some f ∈ usedFrequencies s1)) = true ->
     Q (f, true) s1) ->
    (negb (tooClose config frequencies f)
     && negb (bool_decide (Some f ∈ usedFrequencies s1)) = false ->
     wp k s1 Q) ->
    wp (do used <- setHas (Some f) ;
        if negb (tooClose config frequencies f) && negb used
        then ret (f, true) else k) s1 Q) as Hstep.
  { intros f s1 k Q Hyes Hno. apply wp_bind. unfold wp at 1, setHas.
    destruct (negb _ && negb _) eqn:Hcheck; [by apply wp_ret, Hyes|].
    by apply Hno. }
  induction remaining as [|remaining IH]; intros s Hs;
    cbn [attemptLoop]; apply wp_bind;
    (eapply wp_mono; [by apply wp_randomLogFreq|]);
    intros f s1 (Hf & Hs1 & Hused1); cbv beta; apply Hstep.
  - intros Hcheck. apply andb_true_iff in Hcheck as [Hc Hu].
    apply negb_true_iff in Hc, Hu. apply bool_decide_eq_false in Hu.
    rewrite Hused1 in Hu. done.
  - intros _. apply wp_ret. done.
  - intros Hcheck. apply andb_true_iff in Hcheck as [Hc Hu].
    apply negb_true_iff in Hc, Hu. apply bool_decide_eq_false in Hu.
    rewrite Hused1 in Hu. done.
  - intros _. eapply wp_mono; [by apply IH|].
    intros [f' accepted] s2 (Hf' & Hs2 & Hused2 & Hacc).
    rewrite <- Hused1. done.
Qed.

Lemma pairwise_snoc {A} (P : A -> A -> Prop) (l : list A) (x : A) :
  pairwise P l -> (forall y, y ∈ l -> P y x /\ P x y) ->
  pairwise P (l ++ [x]).
Proof.
  intros Hl Hx i j a b Hij Hi Hj.
  apply lookup_snoc_Some in Hi as [[Hi Ha]|[Hi <-]];
    apply lookup_snoc_Some in Hj as [[Hj Hb]|[Hj <-]].
  - by eapply Hl.
  - apply Hx. by eapply list_elem_of_lookup_2.
  - apply Hx. by eapply list_elem_of_lookup_2.
  - lia.
Qed.

Lemma pairwise_perm {A} (P : A -> A -> Prop) (l l' : list A) :
  l ≡ₚ l' -> pairwise P l -> pairwise P l'.
Proof.
  intros Hperm Hl i j a b Hij Hi Hj.
  symmetry in Hperm. apply Permutation_inj in Hperm as (_ & g & Hinj & Hg).
  rewrite Hg in Hi, Hj. eapply Hl; [|done..].
  intros Heq. by apply Hinj in Heq.
Qed.

Lemma pairwise_nil {A} (P : A -> A -> Prop) : pairwise P [].
Proof. intros i j a b _ Hi. by rewrite lookup_nil in Hi. Qed.

(** The loop that draws the frequencies of one question. *)
Lemma wp_frequencyLoop (todo : nat) (config : Config)
    (frequencies : list Z) (clean : bool) (s : State) :
  unit_interval s ->
  wp (frequencyLoop todo config frequencies clean) s
     (fun '(frequencies', clean') s' =>
        exists new,
          frequencies' = frequencies ++ new
          /\ length new = todo
          /\ Forall inGenerationBand new
          /\ unit_interval s'
          /\ usedFrequencies s ⊆ usedFrequencies s'
          /\ (forall f, f ∈ new -> Some f ∈ usedFrequencies s')
          /\ (clean' = true ->
              clean = true
              /\ (pairwise (gapRespected (minFreqGap config)) frequencies ->
                  pairwise (gapRespected (minFreqGap config)) frequencies')
              /\ forall f, f ∈ new -> Some f ∉ usedFrequencies s)).
Proof.
  revert frequencies clean s.
  induction todo as [|todo IH]; intros frequencies clean s Hs.
  { apply wp_ret. exists []. rewrite app_nil_r.
    split; [done|]. split; [done|]. split; [constructor|].
    split; [done|]. split; [done|].
    split; [intros f Hf; by apply elem_of_nil in Hf|].
    intros ->. split; [done|]. split; [done|].
    intros f Hf. by apply elem_of_nil in Hf. }
  cbn [frequencyLoop]. apply wp_bind.
  eapply wp_mono; [by apply wp_chooseRange|].
  intros range s1 ((name & Hin) & Hs1 & Hused1). cbv beta.
  pose proof (ranges_valid name range Hin) as Hvalid.
  apply wp_bind.
  eapply wp_mono; [apply wp_attemptLoop; [done|lia]|].
  intros [f accepted] s2 (Hf & Hs2 & Hused2 & Hacc). cbv beta.
  apply wp_bind. unfold wp at 1, setAdd.
  eapply wp_mono;
    [apply IH; by apply (unit_interval_same_entropy s2)|].
  intros [frequencies' clean'] s3. cbn [usedFrequencies].
  intros (new & -> & Hlen & Hbands & Hs3 & Hsub & Hnew & Hclean).
  exists (f :: new).
  split; [by rewrite <- app_assoc|].
  split; [simpl; lia|].
  split; [constructor; [by exists name, range|done]|].
  split; [done|].
  split.
  { intros x Hx. apply Hsub, elem_of_union_r. by rewrite Hused2, Hused1. }
  split.
  { intros g Hg. apply elem_of_cons in Hg as [->|Hg]; [|by apply Hnew].
    by apply Hsub, elem_of_union_l, elem_of_singleton. }
  intros ->. destruct Hclean as (Hboth & Hpair & Hfresh); [done|].
  apply andb_true_iff in Hboth as [-> ->].
  destruct Hacc as [Hclose Hunused]; [done|].
  split; [done|]. split.
  - intros Hp. apply Hpair.
    apply pairwise_snoc; [done|]. by apply tooClose_false.
  - intros g Hg. apply elem_of_cons in Hg as [->|Hg].
    + congruence.
    + intros Hin'. apply (Hfresh g Hg), elem_of_union_r.
      by rewrite Hused2, Hused1.
Qed.

Lemma wp_generateQuestion (config : Config) (s : State) :
  unit_interval s ->
  wp (generateQuestion (Some config)) s
     (fun '(q, clean) s' =>
        wellShaped config q
        /\ unit_interval s'
        /\ usedFrequencies s ⊆ usedFrequencies s'
        /\ (forall f, f ∈ QuestionGenerator.frequencies q ->
              Some f ∈ usedFrequencies s')
        /\ (clean = true ->
            pairwise (gapRespected (minFreqGap config))
              (QuestionGenerator.frequencies q)
            /\ forall f, f ∈ QuestionGenerator.frequencies q ->
                 Some f ∉ usedFrequencies s)).
Proof.
  intros Hs. unfold generateQuestion. apply wp_bind.
  eapply wp_mono; [by apply wp_frequencyLoop|].
  intros [frequencies clean] s1.
  intros (new & Heq & Hlen & Hbands & Hs1 & Hsub & Hnew & Hclean).
  rewrite app_nil_l in Heq. subst frequencies.
  assert (forall final s2,
    final ≡ₚ new -> unit_interval s2 ->
    usedFrequencies s2 = usedFrequencies s1 ->
    wp (ret ({| QuestionGenerator.frequencies := final;
                questionStereo := stereo config;
                waveform := "sine";
                duration := 10;
                questionEqualLoudness := equalLoudness config |}, clean)) s2
       (fun '(q, clean) s' =>
        wellShaped config q
        /\ unit_interval s'
        /\ usedFrequencies s ⊆ usedFrequencies s'
        /\ (forall f, f ∈ QuestionGenerator.frequencies q ->
              Some f ∈ usedFrequencies s')
        /\ (clean = true ->
            pairwise (gapRespected (minFreqGap config))
              (QuestionGenerator.frequencies q)
            /\ forall f, f ∈ QuestionGenerator.frequencies q ->
                 Some f ∉ usedFrequencies s))) as Hfinal.
  { intros final s2 Hperm Hs2 Hused2. apply wp_ret.
    unfold wellShaped. cbn [QuestionGenerator.frequencies]. rewrite Hused2.
    split.
    { split; [by rewrite Hperm|]. rewrite Hperm.
      eapply Forall_impl; [exact Hbands|].
      intros f Hf. split; [done|]. by apply inGenerationBand_bounds. }
    split; [done|]. split; [done|].
    split; [intros f Hf; apply Hnew; by rewrite <- Hperm|].
    intros ->. destruct Hclean as (_ & Hpair & Hfresh); [done|].
    split.
    - apply (pairwise_perm _ new); [done|]. apply Hpair, pairwise_nil.
    - intros f Hf. apply Hfresh. by rewrite <- Hperm. }
  apply wp_bind. destruct (stereo config).
  - apply wp_bind, wp_mathRandom, wp_ret.
    apply Hfinal; [|by apply unit_interval_shift|done].
    destruct (ltb _ _).
    + by rewrite reverse_Permutation, merge_sort_Permutation.
    + apply merge_sort_Permutation.
  - apply wp_ret. apply Hfinal; [apply merge_sort_Permutation|done..].
Qed.

Lemma constraintsHold_nil (config : Config) : constraintsHold config [].
Proof. intros k q Hk. by rewrite lookup_nil in Hk. Qed.

Lemma constraintsHold_snoc (config : Config)
    (batch : list (Question * bool)) (q : Question) (clean : bool)
    (s : State) :
  constraintsHold config batch ->
  covered batch s ->
  (clean = true ->
   pairwise (gapRespected (minFreqGap config))
     (QuestionGenerator.frequencies q)
   /\ forall f, f ∈ QuestionGenerator.frequencies q ->
        Some f ∉ usedFrequencies s) ->
  constraintsHold config (batch ++ [(q, clean)]).
Proof.
  intros Hold Hcov Hq k q0 Hk.
  apply lookup_snoc_Some in Hk as [[Hlt Hk]|[Hlen Heq]].
  - destruct (Hold k q0 Hk) as [Hpair Hprior]. split; [done|].
    intros j q' c Hj Hjq. apply (Hprior j q' c Hj).
    rewrite lookup_app_l in Hjq by lia. done.
  - injection Heq as -> ->. destruct Hq as [Hpair Hfresh]; [done|].
    split; [done|].
    intros j q' c Hj Hjq f Hf Hf'.
    rewrite lookup_app_l in Hjq by lia.
    apply (Hfresh f Hf). eapply Hcov; [|done].
    by eapply list_elem_of_lookup_2.
Qed.

Lemma covered_snoc (batch : list (Question * bool)) (q : Question)
    (clean : bool) (s s' : State) :
  covered batch s ->
  usedFrequencies s ⊆ usedFrequencies s' ->
  (forall f, f ∈ QuestionGenerator.frequencies q ->
     Some f ∈ usedFrequencies s') ->
  covered (batch ++ [(q, clean)]) s'.
Proof.
  intros Hcov Hsub Hq q0 c f Hin Hf.
  apply elem_of_app in Hin as [Hin|Hin].
  - apply Hsub. by eapply Hcov.
  - apply list_elem_of_singleton in Hin. injection Hin as -> ->.
    by apply Hq.
Qed.

Lemma wp_questionLoop (todo : nat) (config : Config)
    (batch : list (Question * bool)) (s : State) :
  unit_interval s -> constraintsHold config batch -> covered batch s ->
  wp (questionLoop todo (Some config) batch) s
     (fun batch' s' =>
        exists new,
          batch' = batch ++ new
          /\ length new = todo
          /\ Forall (fun qc => wellShaped config qc.1) new
          /\ unit_interval s'
          /\ constraintsHold config batch').
Proof.
  revert batch s. induction todo as [|todo IH]; intros batch s Hs Hold Hcov.
  { apply wp_ret. exists []. by rewrite app_nil_r. }
  cbn [questionLoop]. apply wp_bind.
  eapply wp_mono; [by apply wp_generateQuestion|].
  intros [q clean] s1 (Hshape & Hs1 & Hsub & Hq & Hclean).
  apply wp_bind. unfold wp at 1, setAdd.
  eapply wp_mono.
  - apply IH.
    + by apply (unit_interval_same_entropy s1).
    + by eapply constraintsHold_snoc.
    + eapply covered_snoc; [done| |].
      * cbn [usedFrequencies]. intros x Hx.
        by apply elem_of_union_r, Hsub.
      * cbn [usedFrequencies]. intros f Hf.
        by apply elem_of_union_r, Hq.
  - intros batch' s2 (new & -> & Hlen & Hshapes & Hs2 & Hold').
    exists ((q, clean) :: new).
    split; [by rewrite <- app_assoc|].
    split; [simpl; lia|].
    split; [by constructor|done].
Qed.

Lemma known_difficulty (difficulty : string) :
  difficulty ∈ ["easy"; "medium"; "hard"]%string ->
  exists config, DIFFICULTY !! difficulty = Some config.
Proof.
  rewrite !elem_of_cons, elem_of_nil.
  intros [->|[->|[->|[]]]]; eexists; reflexivity.
Qed.

Lemma wp_generateBatch (difficulty : string) (config : Config) (n : nat)
    (s : State) :
  unit_interval s -> DIFFICULTY !! difficulty = Some config ->
  wp (generateBatch difficulty n) s
     (fun batch s' =>
        length batch = n
        /\ Forall (fun qc => wellShaped config qc.1) batch
        /\ unit_interval s'
        /\ constraintsHold config batch).
Proof.
  intros Hs Hconfig. unfold generateBatch. rewrite Hconfig.
  apply wp_bind. unfold wp at 1, newSet.
  eapply wp_mono.
  - apply (wp_questionLoop n config []).
    + by apply (unit_interval_same_entropy s).
    + apply constraintsHold_nil.
    + intros q c f Hin. by apply elem_of_nil in Hin.
  - intros batch s' (new & -> & Hlen & Hshapes & Hs' & Hold).
    rewrite app_nil_l in *. done.
Qed.

End GeneratorFacts.

(** ** The retry loops of a run *)

Section Runs.
Import JSMath Eff Hoare QuestionGenerator Spec BatchSpec RunSpec.

Lemma located_moved (e : nat -> R) (p p' : nat) (u : gset (option Z))
    (s : State) :
  p = p' -> located e p u s -> located e p' u s.
Proof. by intros ->. Qed.

Lemma located_advance (e : nat -> R) (p : nat) (u : gset (option Z))
    (s : State) :
  located e p u s -> located e (p + 1) u (advance 1 s).
Proof.
  intros [He Hu]. split; [|done].
  intros i. cbn [advance entropy]. rewrite He. f_equal. lia.
Qed.

Lemma tooClose_admissible (config : Config) (chosen : list Z) (f : Z) :
  tooClose config chosen f = false
  <-> forall g, g ∈ chosen -> gapRespected (minFreqGap config) g f.
Proof.
  split.
  - intros Hclose g Hg. by apply (tooClose_false config chosen f).
  - intros Hgap. apply not_true_is_false. intros Hclose.
    apply existsb_exists in Hclose as (g & Hg & Hlt).
    apply list_elem_of_In in Hg. specialize (Hgap g Hg).
    unfold ltb in Hlt. apply bool_decide_eq_true in Hlt.
    unfold gapRespected in Hgap. lra.
Qed.

Lemma check_admissible (config : Config) (chosen : list Z)
    (u : gset (option Z)) (f : Z) :
  negb (tooClose config chosen f) && negb (bool_decide (Some f ∈ u)) = true
  <-> admissible (minFreqGap config) chosen u f.
Proof.
  unfold admissible. rewrite <- tooClose_admissible.
  rewrite andb_true_iff, !negb_true_iff, bool_decide_eq_false. done.
Qed.

(** The retry loop on the oracle: it stops at the first candidate that
    passes the check, and at the last of [remaining + 1] candidates when
    none does. *)
Lemma attemptLoop_run (remaining : nat) (config : Config) (range : Range)
    (chosen : list Z) (e : nat -> R) (u : gset (option Z)) (p : nat)
    (s : State) :
  located e p u s ->
  exists n c s',
    (n <= remaining)%nat
    /\ attemptLoop remaining config range chosen s
       = Return (candidate range (e (p + n)%nat), c) s'
    /\ located e (p + n + 1) u s'
    /\ (forall k, (k < n)%nat ->
          ~ admissible (minFreqGap config) chosen u
              (candidate range (e (p + k)%nat)))
    /\ (c = true ->
        admissible (minFreqGap config) chosen u
          (candidate range (e (p + n)%nat)))
    /\ (c = false ->
        n = remaining
        /\ ~ admissible (minFreqGap config) chosen u
               (candidate range (e (p + n)%nat))).
Proof.
  revert p s. induction remaining as [|remaining IH]; intros p s Hs;
    pose proof Hs as [He Hu];
    rewrite attemptLoop_step; cbv zeta;
    rewrite He, Hu, Nat.add_0_r;
    destruct (negb _ && negb _) eqn:Hcheck.
  - exists 0%nat, true, (advance 1 s). rewrite !Nat.add_0_r.
    split; [done|]. split; [done|]. split; [by apply located_advance|].
    split; [intros k Hk; lia|]. split; [|done].
    intros _. by apply check_admissible.
  - exists 0%nat, false, (advance 1 s). rewrite !Nat.add_0_r.
    split; [done|]. split; [done|]. split; [by apply located_advance|].
    split; [intros k Hk; lia|]. split; [done|].
    intros _. split; [done|]. rewrite <- check_admissible. congruence.
  - exists 0%nat, true, (advance 1 s). rewrite !Nat.add_0_r.
    split; [lia|]. split; [done|]. split; [by apply located_advance|].
    split; [intros k Hk; lia|]. split; [|done].
    intros _. by apply check_admissible.
  - destruct (IH (p + 1)%nat (advance 1 s) (located_advance _ _ _ _ Hs))
      as (n & c & s' & Hn & Hrun & Hs' & Hbefore & Hyes & Hno).
    exists (S n), c, s'.
    replace (p + S n)%nat with (p + 1 + n)%nat by lia.
    split; [lia|]. split; [done|].
    split; [by apply (located_moved e (p + 1 + n + 1))|].
    split.
    { intros [|k] Hk.
      - rewrite Nat.add_0_r, <- check_admissible. congruence.
      - replace (p + S k)%nat with (p + 1 + k)%nat by lia.
        apply Hbefore. lia. }
    split; [done|].
    intros Hc. destruct (Hno Hc) as [-> Hfail]. done.
Qed.

(** The band is the one that the value of [Math.random()] selects. *)
Lemma chooseRange_run (e : nat -> R) (p : nat) (u : gset (option Z))
    (s : State) :
  0 <= e p < 1 -> located e p u s ->
  exists range,
    chooseRange s = Return range (advance 1 s)
    /\ FREQUENCY_RANGES.*2 !! Z.to_nat (floor (e p * 7)) = Some range
    /\ (exists name, (name, range) ∈ FREQUENCY_RANGES).
Proof.
  intros Hp [He Hu]. unfold chooseRange, bind, mathRandom.
  rewrite He, Nat.add_0_r.
  change (INR (length (FREQUENCY_RANGES.*1))) with (INR 7).
  replace (INR 7) with 7 by (simpl; lra).
  assert (0 <= floor (e p * 7) < 7)%Z as Hk.
  { split; [apply floor_ge; simpl; lra|apply floor_lt; lra]. }
  unfold MathUtils.arrayGet. rewrite decide_True by lia.
  set (k := Z.to_nat (floor (e p * 7))).
  assert (k < 7)%nat as Hk7 by lia. clearbody k.
  assert (exists range,
    match FREQUENCY_RANGES.*1 !! k with
    | Some rangeName =>
        match property FREQUENCY_RANGES rangeName with
        | Some range0 => ret range0
        | None => throw TypeError
        end
    | None => throw TypeError
    end {| entropy := fun i => entropy s (S i);
           usedFrequencies := usedFrequencies s |}
    = Return range (advance 1 s)
    /\ FREQUENCY_RANGES.*2 !! k = Some range) as (range & Hrun & Hband).
  { do 7 (destruct k as [|k]; [eexists; split; reflexivity|]). lia. }
  exists range. split; [done|]. split; [done|].
  apply list_elem_of_lookup_2, list_elem_of_fmap in Hband
    as ([name range'] & -> & Hin).
  by exists name.
Qed.

Lemma kept_slot (e : nat -> R) (p : nat) (fs : list Z)
    (u : gset (option Z)) (range : Range) (n : nat) :
  kept e {| pos := p; chosen := fs; used := u; band := range;
            draws := S n |}
  = candidate range (e (p + 1 + n)%nat).
Proof.
  unfold kept, drawn. cbn [draws pos band]. do 2 f_equal. lia.
Qed.

(** The loop that draws the frequencies of one question, on the oracle. *)
Lemma frequencyLoop_run (todo : nat) (config : Config) (fs : list Z)
    (c : bool) (e : nat -> R) (p : nat) (u : gset (option Z)) (s : State) :
  (forall i, 0 <= e i < 1) -> located e p u s ->
  exists slots c' s',
    frequencyLoop todo config fs c s
    = Return (fs ++ (kept e <$> slots), c') s'
    /\ length slots = todo
    /\ consecutive e p u fs slots
    /\ Forall (lawful config e) slots
    /\ located e (p + consumed slots) (usedAfter e u slots) s'
    /\ (c' = true <-> c = true /\ Forall (satisfied config e) slots).
Proof.
  intros He. revert fs c p u s.
  induction todo as [|todo IH]; intros fs c p u s Hs.
  { exists [], c, s. cbn [frequencyLoop fmap list_fmap]. rewrite app_nil_r.
    split; [done|]. split; [done|]. split; [done|].
    split; [constructor|].
    split; [by apply (located_moved e p)|].
    split; [by intros ->|by intros [-> _]]. }
  destruct (chooseRange_run e p u s (He p) Hs)
    as (range & Hchoose & Hband & _).
  destruct (attemptLoop_run 99 config range fs e u (p + 1) (advance 1 s)
              (located_advance _ _ _ _ Hs))
    as (n & acc & s2 & Hn & Hattempt & Hs2 & Hbefore & Hyes & Hno).
  set (f := candidate range (e (p + 1 + n)%nat)) in *.
  set (sl := {| pos := p; chosen := fs; used := u; band := range;
                draws := S n |}).
  assert (kept e sl = f) as Hkept by apply kept_slot.
  set (s3 := {| entropy := entropy s2;
                usedFrequencies := {[ Some f ]} ∪ usedFrequencies s2 |}).
  assert (located e (p + 1 + draws sl) ({[ Some (kept e sl) ]} ∪ u) s3)
    as Hs3.
  { destruct Hs2 as [He2 Hu2]. rewrite Hkept. split.
    - intros i. cbn [s3 entropy]. rewrite He2. cbn [sl draws].
      f_equal. lia.
    - cbn [s3 usedFrequencies]. by rewrite Hu2. }
  destruct (IH (fs ++ [f]) (c && acc) _ _ s3 Hs3)
    as (slots & c' & s' & Hrun & Hlen & Hchain & Hlaw & Hs' & Hflag).
  exists (sl :: slots), c', s'.
  split.
  { cbn [frequencyLoop]. unfold bind at 1. rewrite Hchoose.
    unfold bind at 1. rewrite Hattempt.
    unfold bind at 1, setAdd at 1. fold s3. rewrite Hrun.
    cbn [fmap list_fmap]. rewrite Hkept, <- app_assoc. done. }
  split; [simpl; lia|].
  split.
  { cbn [consecutive]. rewrite Hkept in Hchain |- *. done. }
  split.
  { constructor; [|done]. unfold lawful. cbn [sl pos draws].
    split; [done|]. split; [lia|]. split.
    - intros k Hk. unfold acceptable, drawn. cbn [chosen used band pos].
      apply Hbefore. lia.
    - destruct acc.
      + left. unfold satisfied, acceptable. rewrite Hkept.
        cbn [chosen used]. by apply Hyes.
      + right. destruct Hno as [-> _]; done. }
  split.
  { cbn [consumed foldr usedAfter foldl].
    eapply located_moved; [|exact Hs']. unfold consumed. lia. }
  rewrite Hflag, andb_true_iff, Forall_cons.
  assert (acc = true <-> satisfied config e sl) as Hacc.
  { unfold satisfied, acceptable. rewrite Hkept. cbn [chosen used].
    split; [by apply Hyes|].
    intros Hok. destruct acc; [done|]. by destruct Hno as [_ []]. }
  rewrite Hacc. tauto.
Qed.

(** One question on the oracle. *)
Lemma generateQuestion_run (config : Config) (e : nat -> R) (p : nat)
    (u : gset (option Z)) (s : State) :
  (forall i, 0 <= e i < 1) -> located e p u s ->
  exists q c slots s',
    generateQuestion (Some config) s = Return (q, c) s'
    /\ length slots = freqCount config
    /\ consecutive e p u [] slots
    /\ Forall (lawful config e) slots
    /\ frequencies q ≡ₚ kept e <$> slots
    /\ located e (p + consumed slots + (if stereo config then 1 else 0))
         (usedAfter e u slots) s'
    /\ (c = true <-> Forall (satisfied config e) slots).
Proof.
  intros He Hs.
  destruct (frequencyLoop_run (freqCount config) config [] true e p u s
              He Hs)
    as (slots & c & s1 & Hrun & Hlen & Hchain & Hlaw & Hs1 & Hflag).
  rewrite app_nil_l in Hrun.
  unfold generateQuestion. unfold bind at 1. rewrite Hrun.
  destruct (stereo config).
  - eexists _, c, slots, _. split; [reflexivity|].
    split; [done|]. split; [done|]. split; [done|].
    cbn [frequencies]. split.
    { destruct (ltb _ _).
      - by rewrite reverse_Permutation, merge_sort_Permutation.
      - apply merge_sort_Permutation. }
    split; [|rewrite Hflag; tauto].
    apply (located_advance e _ _ s1 Hs1).
  - eexists _, c, slots, _. split; [reflexivity|].
    split; [done|]. split; [done|]. split; [done|].
    cbn [frequencies]. split; [apply merge_sort_Permutation|].
    split; [|rewrite Hflag; tauto].
    eapply located_moved; [|exact Hs1]. lia.
Qed.

(** The loop over the questions, on the oracle. *)
Lemma questionLoop_run (todo : nat) (config : Config)
    (batch : list (Question * bool)) (e : nat -> R) (p : nat)
    (u : gset (option Z)) (s : State) :
  (forall i, 0 <= e i < 1) -> located e p u s ->
  exists new runs s',
    questionLoop todo (Some config) batch s = Return (batch ++ new) s'
    /\ explains config e p u (new.*1) runs
    /\ Forall (Forall (lawful config e)) runs
    /\ Forall2 (fun qc slots =>
                  qc.2 = true <-> Forall (satisfied config e) slots)
         new runs.
Proof.
  intros He. revert batch p u s.
  induction todo as [|todo IH]; intros batch p u s Hs.
  { exists [], [], s. cbn [questionLoop]. rewrite app_nil_r.
    split; [done|]. split; [done|]. split; constructor. }
  destruct (generateQuestion_run config e p u s He Hs)
    as (q & c & slots & s1 & Hrun & Hlen & Hchain & Hlaw & Hperm & Hs1
        & Hflag).
  set (s2 := {| entropy := entropy s1;
                usedFrequencies := {[ None ]} ∪ usedFrequencies s1 |}).
  assert (located e (p + consumed slots + (if stereo config then 1 else 0))
            ({[ None ]} ∪ usedAfter e u slots) s2) as Hs2.
  { destruct Hs1 as [He1 Hu1]. split; [done|].
    cbn [s2 usedFrequencies]. by rewrite Hu1. }
  destruct (IH (batch ++ [(q, c)]) _ _ s2 Hs2)
    as (new & runs & s' & Hloop & Hexplains & Hlaws & Hflags).
  exists ((q, c) :: new), (slots :: runs), s'.
  split.
  { cbn [questionLoop]. unfold bind at 1. rewrite Hrun.
    unfold bind at 1, setAdd at 1. fold s2. rewrite Hloop.
    by rewrite <- app_assoc. }
  split; [done|]. split; by constructor.
Qed.

Lemma generateBatch_run (difficulty : string) (config : Config) (n : nat)
    (s : State) :
  unit_interval s -> DIFFICULTY !! difficulty = Some config ->
  exists batch runs s',
    generateBatch difficulty n s = Return batch s'
    /\ explains config (entropy s) 0 ∅ (batch.*1) runs
    /\ Forall (Forall (lawful config (entropy s))) runs
    /\ Forall2 (fun qc slots =>
                  qc.2 = true
                  <-> Forall (satisfied config (entropy s)) slots)
         batch runs.
Proof.
  intros Hs Hconfig.
  destruct (questionLoop_run n config [] (entropy s) 0 ∅
              {| entropy := entropy s; usedFrequencies := ∅ |} Hs)
    as (new & runs & s' & Hloop & Hexplains & Hlaws & Hflags); [done|].
  exists new, runs, s'. split; [|done].
  unfold generateBatch. rewrite Hconfig. unfold bind, newSet.
  by rewrite Hloop.
Qed.

End Runs.

Section GeneratorTheorems.
Import Eff Hoare QuestionGenerator Spec BatchSpec RunSpec.

(** Outside the three profiles the lookup gives [undefined] and the first
    question raises at [config.freqCount]. *)
Lemma unknown_difficulty_raises (difficulty : string) (n : nat) (s : State) :
  DIFFICULTY !! difficulty = None ->
  generateQuestions difficulty (S n) s = Fail TypeError.
Proof.
  intros Hnone. unfold generateQuestions, generateBatch, bind.
  by rewrite Hnone.
Qed.

(** C2: for each of the three difficulties and every question count [n],
    [generateQuestions] returns exactly [n] questions; each has as many
    frequencies as the profile's [freqCount], and each frequency lies in
    one of the seven generation bands, hence in [[20, 20000]]. *)
Theorem generateQuestions_shape (difficulty : string) (n : nat)
    (s : State) :
  unit_interval s ->
  difficulty ∈ ["easy"; "medium"; "hard"]%string ->
  exists config questions s',
    DIFFICULTY !! difficulty = Some config
    /\ generateQuestions difficulty n s = Return questions s'
    /\ length questions = n
    /\ Forall (fun q =>
                 length (frequencies q) = freqCount config
                 /\ Forall (fun f => inGenerationBand f
                                     /\ (20 <= f <= 20000)%Z)
                      (frequencies q))
         questions.
Proof.
  intros Hs Hknown.
  destruct (known_difficulty difficulty Hknown) as [config Hconfig].
  exists config.
  assert (wp (generateQuestions difficulty n) s
            (fun questions _ =>
               length questions = n
               /\ Forall (wellShaped config) questions)) as Hwp.
  { unfold generateQuestions. apply wp_bind.
    eapply wp_mono; [by apply wp_generateBatch|].
    intros batch s1 (Hlen & Hshapes & Hs1 & _).
    eapply wp_mono; [by apply wp_shuffle|].
    intros questions s2 (Hperm & _). cbv beta.
    rewrite Hperm. split; [by rewrite length_fmap|].
    by apply Forall_fmap. }
  apply wp_returns in Hwp as (questions & s' & Hrun & Hlen & Hshapes).
  by exists questions, s'.
Qed.

Lemma zeroState_unit_interval : unit_interval Examples.zeroState.
Proof. intros i. simpl. lra. Qed.

Lemma medium_known : "medium" ∈ ["easy"; "medium"; "hard"]%string.
Proof. apply elem_of_cons. right. apply elem_of_cons. by left. Qed.

Lemma generateQuestions_shape_witness :
  exists questions s',
    generateQuestions "medium" 10 Examples.zeroState = Return questions s'
    /\ length questions = 10%nat
    /\ Forall (fun q => length (frequencies q) = 2%nat) questions.
Proof.
  destruct (generateQuestions_shape "medium" 10 Examples.zeroState
              zeroState_unit_interval medium_known)
    as (config & questions & s' & Hconfig & Hrun & Hlen & Hshapes).
  exists questions, s'. split; [exact Hrun|]. split; [exact Hlen|].
  injection Hconfig as <-.
  eapply Forall_impl; [exact Hshapes|]. by intros q [Hq _].
Defined.

(** C3: generation returns for each of the three difficulties (it never
    raises); the questions returned are those generated, in shuffled
    order.  The run is explained by the retry loops it made, located on
    the values of [Math.random()]: every frequency of every question is
    the candidate kept by one loop ([explains]), and every loop followed
    the rule ([lawful]): the candidates drawn before the kept one failed
    the check against the frequencies the question had and the set of
    used frequencies at that time, and the kept one passes that check
    unless it is the 100th candidate.  In a question all of whose loops
    kept a candidate that passes, any two frequencies have ratio max/min
    at least [minFreqGap] and no frequency equals a frequency of a
    question generated earlier in the batch. *)
Theorem generation_constraints (difficulty : string) (n : nat)
    (s : State) :
  unit_interval s ->
  difficulty ∈ ["easy"; "medium"; "hard"]%string ->
  exists config batch s1 questions s2 runs,
    DIFFICULTY !! difficulty = Some config
    /\ generateBatch difficulty n s = Return batch s1
    /\ generateQuestions difficulty n s = Return questions s2
    /\ questions ≡ₚ batch.*1
    /\ explains config (entropy s) 0 ∅ (batch.*1) runs
    /\ Forall (Forall (lawful config (entropy s))) runs
    /\ Forall2 (fun qc slots =>
                  qc.2 = true
                  <-> Forall (satisfied config (entropy s)) slots)
         batch runs
    /\ forall k q slots,
         batch.*1 !! k = Some q -> runs !! k = Some slots ->
         Forall (satisfied config (entropy s)) slots ->
         pairwise (gapRespected (minFreqGap config)) (frequencies q)
         /\ forall j q',
              (j < k)%nat -> batch.*1 !! j = Some q' ->
              forall f, f ∈ frequencies q -> f ∉ frequencies q'.
Proof.
  intros Hs Hknown.
  destruct (known_difficulty difficulty Hknown) as [config Hconfig].
  pose proof (wp_generateBatch difficulty config n s Hs Hconfig) as Hbatch.
  apply wp_returns in Hbatch
    as (batch & s1 & Hrun1 & Hlen & Hshapes & Hs1 & Hold).
  destruct (generateBatch_run difficulty config n s Hs Hconfig)
    as (batch' & runs & s1' & Hrun1' & Hexplains & Hlaws & Hflags).
  rewrite Hrun1 in Hrun1'. injection Hrun1' as <- <-.
  pose proof (wp_shuffle (batch.*1) s1 Hs1) as Hshuffle.
  apply wp_returns in Hshuffle as (questions & s2 & Hrun2 & Hperm & _).
  exists config, batch, s1, questions, s2, runs.
  split; [done|]. split; [done|].
  split; [unfold generateQuestions, bind; by rewrite Hrun1|].
  split; [done|]. split; [done|]. split; [done|]. split; [done|].
  intros k q slots Hk Hslots Hsat.
  apply list_lookup_fmap_Some in Hk as ([q0 c] & -> & Hk). cbn [fst].
  assert (c = true) as ->.
  { destruct (Forall2_lookup_lr _ _ _ _ _ _ Hflags Hk Hslots) as [_ Hc].
    by apply Hc. }
  destruct (Hold k q0 Hk) as [Hpair Hprior]. split; [done|].
  intros j q' Hj Hjq.
  apply list_lookup_fmap_Some in Hjq as ([q1 c1] & -> & Hjq).
  by apply (Hprior j q1 c1).
Qed.

Lemma easy_known : "easy" ∈ ["easy"; "medium"; "hard"]%string.
Proof. apply elem_of_cons. by left. Qed.

Lemma generation_constraints_witness :
  exists config batch s1 questions s2 runs,
    DIFFICULTY !! "easy" = Some config
    /\ generateBatch "easy" 2 Examples.zeroState = Return batch s1
    /\ generateQuestions "easy" 2 Examples.zeroState = Return questions s2
    /\ questions ≡ₚ batch.*1
    /\ explains config (fun _ => 0) 0 ∅ (batch.*1) runs
    /\ Forall (Forall (lawful config (fun _ => 0))) runs.
Proof.
  destruct (generation_constraints "easy" 2 Examples.zeroState
              zeroState_unit_interval easy_known)
    as (config & batch & s1 & questions & s2 & runs
        & Hconfig & Hrun1 & Hrun2 & Hperm & Hexplains & Hlaws & _).
  exists config, batch, s1, questions, s2, runs.
  split; [exact Hconfig|]. split; [exact Hrun1|]. split; [exact Hrun2|].
  split; [exact Hperm|]. split; [exact Hexplains|exact Hlaws].
Defined.

End GeneratorTheorems.

(** ** Loudness correction *)

Section LoudnessFacts.
Import JSMath EqualLoudness LoudnessSpec.

Lemma freqPoints_perm (curve : Curve) : freqPointsOf curve ≡ₚ curve.*1.
Proof. apply merge_sort_Permutation. Qed.

Lemma freqPoints_sorted (curve : Curve) :
  StronglySorted Rle (freqPointsOf curve).
Proof. apply (StronglySorted_merge_sort Rle). Qed.

Lemma curveAt_key (curve : Curve) (p : R) :
  p ∈ curve.*1 -> exists dB, curveAt curve p = Some dB /\ (p, dB) ∈ curve.
Proof.
  induction curve as [|[f dB] curve IH]; intros Hp.
  { by apply elem_of_nil in Hp. }
  cbn [curveAt]. destruct (decide (f = p)) as [->|Hne].
  - exists dB. split; [done|]. apply elem_of_cons. by left.
  - rewrite fmap_cons in Hp. apply elem_of_cons in Hp as [Hp|Hp].
    { simpl in Hp. congruence. }
    destruct (IH Hp) as (dB' & Hat & Hin).
    exists dB'. split; [done|]. apply elem_of_cons. by right.
Qed.

Lemma sorted_head_least (l : list R) (x : R) :
  StronglySorted Rle l -> head l = Some x ->
  forall q, q ∈ l -> x <= q.
Proof.
  intros Hs Hx q Hq. destruct Hs as [|y l Hs Hall]; [done|].
  injection Hx as ->. apply elem_of_cons in Hq as [->|Hq]; [lra|].
  rewrite Forall_forall in Hall. by apply Hall.
Qed.

Lemma sorted_last_greatest (l : list R) (x : R) :
  StronglySorted Rle l -> last l = Some x ->
  forall q, q ∈ l -> q <= x.
Proof.
  intros Hs. induction Hs as [|y l Hs IH Hall]; intros Hx q Hq.
  { by apply elem_of_nil in Hq. }
  destruct l as [|z l].
  - injection Hx as ->. apply list_elem_of_singleton in Hq as ->. lra.
  - rewrite last_cons_cons in Hx.
    apply elem_of_cons in Hq as [->|Hq]; [|by apply IH].
    rewrite Forall_forall in Hall. apply Hall.
    apply last_Some_elem_of in Hx. done.
Qed.

(** Inside the domain the search loop finds two consecutive points around
    the frequency. *)
Lemma findBracket_inside (f : R) (l : list R) (final : R) :
  last l = Some final ->
  (exists first, head l = Some first /\ first <= f) ->
  f <= final ->
  (2 <= length l)%nat ->
  exists lo hi l1 l2,
    findBracket f l = Some (lo, hi)
    /\ l = l1 ++ lo :: hi :: l2
    /\ lo <= f <= hi.
Proof.
  induction l as [|p l IH]; intros Hlast (first & Hfirst & Hle) Hf Hlen.
  { simpl in Hlen. lia. }
  injection Hfirst as ->.
  destruct l as [|q l]; [simpl in Hlen; lia|].
  cbn [findBracket].
  rewrite (bool_decide_eq_true_2 (first <= f)) by done.
  rewrite andb_true_l.
  destruct (bool_decide (f <= q)) eqn:Hq.
  - apply bool_decide_eq_true in Hq.
    by exists first, q, [], l.
  - apply bool_decide_eq_false in Hq. rewrite last_cons_cons in Hlast.
    destruct l as [|r l].
    { injection Hlast as ->. lra. }
    destruct IH as (lo & hi & l1 & l2 & Hfind & Hsplit & Hbr);
      [done|exists q; split; [done|lra]|done|simpl; lia|].
    exists lo, hi, (first :: l1), l2.
    split; [done|]. split; [|done].
    by rewrite Hsplit.
Qed.

Lemma consecutive_adjacent (curve : Curve) (lo hi : R) (l1 l2 : list R) :
  NoDup (curve.*1) ->
  freqPointsOf curve = l1 ++ lo :: hi :: l2 ->
  adjacent curve lo hi.
Proof.
  intros Hnodup Hsplit.
  pose proof (freqPoints_sorted curve) as Hsorted.
  pose proof (freqPoints_perm curve) as Hperm.
  rewrite <- Hperm in Hnodup. rewrite Hsplit in Hsorted, Hnodup, Hperm.
  apply StronglySorted_app in Hsorted as (Hcross & Hs1 & Hs2).
  apply NoDup_app in Hnodup as (_ & _ & Hnd).
  apply StronglySorted_inv in Hs2 as [Hs3 Hlo].
  apply StronglySorted_inv in Hs3 as [_ Hhi].
  apply NoDup_cons in Hnd as [Hlohi _].
  rewrite Forall_forall in Hlo, Hhi.
  assert (lo <= hi) as Hle by (apply Hlo, elem_of_cons; by left).
  assert (lo <> hi) as Hne
    by (intros ->; apply Hlohi, elem_of_cons; by left).
  split.
  { rewrite <- Hperm. apply elem_of_app. right. apply elem_of_cons. by left. }
  split.
  { rewrite <- Hperm. apply elem_of_app. right.
    apply elem_of_cons. right. apply elem_of_cons. by left. }
  split; [lra|].
  intros q Hq [Hq1 Hq2]. rewrite <- Hperm in Hq.
  apply elem_of_app in Hq as [Hq|Hq].
  - assert (q <= lo); [|lra].
    apply (Hcross q lo); [done|]. apply elem_of_cons. by left.
  - apply elem_of_cons in Hq as [->|Hq]; [lra|].
    apply elem_of_cons in Hq as [->|Hq]; [lra|].
    assert (hi <= q) by by apply Hhi. lra.
Qed.

Lemma interpolateCorrection_spec (f : R) (curve : Curve) :
  wellFormed curve ->
  exists dB, interpolateCorrection f curve = Some dB /\ correction curve f dB.
Proof.
  intros (Hne & Hnodup & Hpos).
  pose proof (freqPoints_sorted curve) as Hsorted.
  pose proof (freqPoints_perm curve) as Hperm.
  unfold interpolateCorrection.
  destruct (freqPointsOf curve) as [|first rest] eqn:Hpts.
  { apply Permutation_nil_l in Hperm. destruct curve; done. }
  destruct (last_is_Some (first :: rest)) as [_ [final Hfinal]]; [done|].
  rewrite Hfinal. cbn [head].
  assert (forall q, q ∈ curve.*1 -> first <= q) as Hleast.
  { intros q Hq. rewrite <- Hperm in Hq.
    by apply (sorted_head_least (first :: rest)). }
  assert (forall q, q ∈ curve.*1 -> q <= final) as Hgreatest.
  { intros q Hq. rewrite <- Hperm in Hq.
    by apply (sorted_last_greatest (first :: rest)). }
  assert (first ∈ curve.*1) as Hfirst
    by (rewrite <- Hperm; apply elem_of_cons; by left).
  assert (final ∈ curve.*1) as Hlast
    by (rewrite <- Hperm; by apply last_Some_elem_of).
  case_bool_decide as Hlow.
  { destruct (curveAt_key curve first Hfirst) as (dB & Hat & Hin).
    exists dB. split; [done|].
    by apply (correction_below curve f first dB). }
  case_bool_decide as Hhigh.
  { destruct (curveAt_key curve final Hlast) as (dB & Hat & Hin).
    exists dB. split; [done|].
    apply (correction_above curve f final dB); [done| |done].
    apply Rnot_le_lt in Hlow. clear -Hhigh. lra. }
  destruct (findBracket_inside f (first :: rest) final)
    as (lo & hi & l1 & l2 & Hfind & Hsplit & Hbr).
  { done. }
  { exists first. split; [done|lra]. }
  { lra. }
  { destruct rest; [|simpl; lia]. simpl in Hfinal. injection Hfinal as <-. lra. }
  rewrite Hfind. cbn [default from_option Datatypes.id].
  rewrite <- Hpts in Hsplit.
  pose proof (consecutive_adjacent curve lo hi l1 l2 Hnodup Hsplit) as Hadj.
  destruct Hadj as (Hlo & Hhi & Hrest).
  destruct (curveAt_key curve lo Hlo) as (dBlo & Hatlo & Hinlo).
  destruct (curveAt_key curve hi Hhi) as (dBhi & Hathi & Hinhi).
  eexists. split; [by rewrite Hatlo, Hathi|].
  by apply correction_between.
Qed.

Lemma nodup_keys_functional (curve : Curve) (p d1 d2 : R) :
  NoDup (curve.*1) -> (p, d1) ∈ curve -> (p, d2) ∈ curve -> d1 = d2.
Proof.
  induction curve as [|[q d] curve IH]; intros Hnodup H1 H2.
  { by apply elem_of_nil in H1. }
  rewrite fmap_cons in Hnodup. apply NoDup_cons in Hnodup as [Hq Hnodup].
  assert (forall d', (p, d') ∈ curve -> p ∈ curve.*1) as Hkey.
  { intros d' Hd'. apply list_elem_of_fmap. by exists (p, d'). }
  apply elem_of_cons in H1 as [H1|H1]; apply elem_of_cons in H2 as [H2|H2].
  - congruence.
  - injection H1 as -> ->. destruct Hq. by eapply Hkey.
  - injection H2 as -> ->. destruct Hq. by eapply Hkey.
  - by apply IH.
Qed.

Lemma twoPoints_wellFormed : wellFormed twoPoints.
Proof.
  unfold wellFormed, twoPoints. split; [done|]. split.
  - cbn [fmap list_fmap fst]. apply NoDup_cons. split.
    + rewrite list_elem_of_singleton. lra.
    + apply NoDup_singleton.
  - cbn [fmap list_fmap fst]. repeat constructor; lra.
Qed.

(** The correction of a frequency at or below the lowest point is the dB
    of that point. *)
Lemma correction_at_or_below (curve : Curve) (f p dB dB' : R) :
  NoDup (curve.*1) ->
  lowest curve p -> f <= p -> (p, dB) ∈ curve ->
  correction curve f dB' -> dB' = dB.
Proof.
  intros Hnodup [Hp Hleast] Hf Hin Hcorr.
  assert (forall q d, (q, d) ∈ curve -> q = p -> d = dB) as Hfun.
  { intros q d Hq ->. by eapply nodup_keys_functional. }
  destruct Hcorr as [q d [Hq Hq'] Hfq Hqd|q d [Hq Hq'] Hfq Hqd
                    |lo hi dlo dhi (Hlo & Hhi & Hlt & _) [Hflo Hfhi] Hdlo Hdhi].
  - apply (Hfun q d Hqd). apply Rle_antisym; [by apply Hq'|by apply Hleast].
  - apply (Hfun q d Hqd). apply Rle_antisym; [|by apply Hq'].
    pose proof (Hleast q Hq). lra.
  - pose proof (Hleast lo Hlo). pose proof (Hleast hi Hhi).
    assert (lo = p) as -> by lra.
    assert (f = p) as -> by lra.
    rewrite (Hfun p dlo Hdlo eq_refl). subst t.
    replace (log10 p - log10 p) with 0 by lra.
    unfold Rdiv. rewrite Rmult_0_l, Rmult_0_r. lra.
Qed.

End LoudnessFacts.

Section LoudnessTheorems.
Import JSMath EqualLoudness LoudnessSpec.

(** C5: [getGain] returns 1 when the mode is ['off'] (or [null]), when no
    curve data is loaded, and when the curve of the requested level is
    missing; otherwise, for a curve with at least one point, it returns
    [10^(dB/20)] where [dB] is the dB of the nearest end point for a
    frequency outside the domain of the curve, and inside it the linear
    interpolation between the two bracketing points with
    [t = (log10 f - log10 f_low) / (log10 f_high - log10 f_low)]; for the
    curve with -10 dB at 100 Hz and 0 dB at 1000 Hz, 100 Hz and 10 Hz both
    give [10^(-10/20)]. *)
Theorem getGain_spec :
  (forall f phon, getGain None f phon = Some 1)
  /\ (forall curves f,
        getGain curves f (Some "off") = Some 1
        /\ getGain curves f None = Some 1)
  /\ (forall (curves : gmap string Curve) f phon,
        curves !! (phon +:+ "_phon")%string = None ->
        getGain (Some curves) f (Some phon) = Some 1)
  /\ (forall (curves : gmap string Curve) f phon curve,
        phon <> "off" ->
        curves !! (phon +:+ "_phon")%string = Some curve ->
        wellFormed curve ->
        exists dB,
          correction curve f dB
          /\ interpolateCorrection f curve = Some dB
          /\ getGain (Some curves) f (Some phon) = Some (pow10 (dB / 20)))
  /\ (let curves : gmap string Curve := {[ "60_phon" := twoPoints ]} in
      getGain (Some curves) 100 (Some "60") = Some (pow10 (- 10 / 20))
      /\ getGain (Some curves) 10 (Some "60") = Some (pow10 (- 10 / 20))).
Proof.
  assert (forall (curves : gmap string Curve) f phon curve,
        phon <> "off" ->
        curves !! (phon +:+ "_phon")%string = Some curve ->
        wellFormed curve ->
        exists dB,
          correction curve f dB
          /\ interpolateCorrection f curve = Some dB
          /\ getGain (Some curves) f (Some phon) = Some (pow10 (dB / 20)))
    as Hmain.
  { intros curves f phon curve Hoff Hcurve Hwf.
    destruct (interpolateCorrection_spec f curve Hwf) as (dB & Hint & Hcorr).
    exists dB. split; [done|]. split; [done|].
    unfold getGain. rewrite decide_False by done.
    rewrite Hcurve, Hint. done. }
  split; [done|]. split.
  { intros [curves|] f; done. }
  split.
  { intros curves f phon Hcurve. unfold getGain.
    destruct (decide (phon = "off")); [done|]. by rewrite Hcurve. }
  split; [exact Hmain|].
  cbv zeta.
  assert (lowest twoPoints 100) as Hlow.
  { split.
    - apply elem_of_cons. by left.
    - intros q Hq. unfold twoPoints in Hq. cbn [fmap list_fmap fst] in Hq.
      apply elem_of_cons in Hq as [->|Hq]; [lra|].
      apply list_elem_of_singleton in Hq as ->. lra. }
  assert ((100, -10) ∈ twoPoints) as Hin by (apply elem_of_cons; by left).
  assert (forall f, f <= 100 ->
    getGain (Some {[ "60_phon" := twoPoints ]}) f (Some "60")
      = Some (pow10 (- 10 / 20))) as Hex.
  { intros f Hf.
    destruct (Hmain {[ "60_phon" := twoPoints ]} f "60" twoPoints)
      as (dB & Hcorr & _ & Hgain);
      [done|done|apply twoPoints_wellFormed|].
    rewrite Hgain. do 3 f_equal.
    eapply (correction_at_or_below twoPoints f 100 (-10) dB); try done.
    apply twoPoints_wellFormed. }
  split; apply Hex; lra.
Qed.

End LoudnessTheorems.

(** ** The relaxation after 100 attempts *)

Section Relaxation.
Import JSMath Eff Hoare QuestionGenerator Spec BatchSpec RunSpec.

Lemma zeroEntropy_advance (n : nat) (s : State) :
  zeroEntropy s -> zeroEntropy (advance n s).
Proof. intros Hs i. apply Hs. Qed.

Lemma zeroEntropy_unit_interval (s : State) :
  zeroEntropy s -> unit_interval s.
Proof. intros Hs i. rewrite Hs. lra. Qed.

Lemma candidate_zero (range : Range) :
  (0 < min range)%Z -> candidate range 0 = min range.
Proof.
  intros Hmin. unfold candidate. cbv zeta.
  rewrite Rmult_0_l, Rplus_0_r, pow10_log10 by by apply IZR_lt.
  apply round_IZR.
Qed.

(** With an oracle that answers 0 the band is the first one, [ultraLow]. *)
Lemma wp_chooseRange_zero (s : State) :
  zeroEntropy s ->
  wp chooseRange s
     (fun range s' => range = {| min := 20; max := 80; count := 1 |}
                      /\ zeroEntropy s'
                      /\ usedFrequencies s' = usedFrequencies s).
Proof.
  intros Hs. unfold chooseRange. apply wp_bind, wp_mathRandom.
  rewrite Hs, Rmult_0_l.
  replace (floor 0) with 0%Z by (symmetry; apply (floor_unique 0 0); lra).
  apply wp_ret. split; [done|]. split; [|done].
  intros i. apply Hs.
Qed.

(** With an oracle that answers 0 every candidate in [ultraLow] is 20 Hz:
    it is accepted at once while 20 is unused, and kept after all the
    attempts once 20 is used. *)
Lemma wp_attemptLoop_zero (remaining : nat) (config : Config) (s : State) :
  zeroEntropy s ->
  wp (attemptLoop remaining config {| min := 20; max := 80; count := 1 |} [])
     s
     (fun '(f, accepted) s' =>
        f = 20%Z
        /\ accepted = negb (bool_decide (Some 20%Z ∈ usedFrequencies s))
        /\ zeroEntropy s'
        /\ usedFrequencies s' = usedFrequencies s).
Proof.
  revert s. induction remaining as [|remaining IH]; intros s Hs;
    unfold wp; rewrite attemptLoop_step; cbv zeta;
    rewrite Hs, candidate_zero by done; cbn [min tooClose existsb negb andb];
    destruct (bool_decide (Some 20%Z ∈ usedFrequencies s)) eqn:Hused;
    cbn [negb].
  - split; [done|]. split; [done|]. split; [|done].
    by apply zeroEntropy_advance.
  - split; [done|]. split; [done|]. split; [|done].
    by apply zeroEntropy_advance.
  - specialize (IH (advance 1 s) (zeroEntropy_advance 1 s Hs)).
    unfold wp in IH. destruct (attemptLoop _ _ _ _ _) as [[f acc] s'|];
      [|done].
    cbn [advance usedFrequencies] in IH. by rewrite Hused in IH.
  - split; [done|]. split; [done|]. split; [|done].
    by apply zeroEntropy_advance.
Qed.

Lemma wp_generateQuestion_zero (s : State) :
  zeroEntropy s ->
  wp (generateQuestion (DIFFICULTY !! "easy")) s
     (fun '(q, clean) s' =>
        q = Examples.lowestQuestion
        /\ clean = negb (bool_decide (Some 20%Z ∈ usedFrequencies s))
        /\ zeroEntropy s'
        /\ Some 20%Z ∈ usedFrequencies s').
Proof.
  intros Hs.
  change (DIFFICULTY !! "easy")
    with (Some {| freqCount := 1; minFreqGap := 1.5;
                  equalLoudness := "off"; stereo := false |}).
  unfold generateQuestion. cbn [freqCount stereo equalLoudness frequencyLoop].
  apply wp_bind, wp_bind.
  eapply wp_mono; [by apply wp_chooseRange_zero|].
  intros range s1 (-> & Hs1 & Hused1). apply wp_bind.
  eapply wp_mono; [by apply wp_attemptLoop_zero|].
  intros [f accepted] s2 (-> & -> & Hs2 & Hused2).
  apply wp_bind. unfold wp at 1, setAdd. apply wp_ret, wp_bind, wp_ret, wp_ret.
  cbn [usedFrequencies entropy]. split; [done|].
  split; [by rewrite Hused1|]. split; [done|].
  by apply elem_of_union_l, elem_of_singleton.
Qed.

(** Two easy questions from an oracle that always answers 0: the second
    retry loop runs out and the second question repeats the frequency of
    the first. *)
Lemma relaxation_example :
  exists s',
    generateBatch "easy" 2 Examples.zeroState
    = Return [(Examples.lowestQuestion, true);
              (Examples.lowestQuestion, false)] s'.
Proof.
  assert (wp (generateBatch "easy" 2) Examples.zeroState
            (fun batch _ => batch = [(Examples.lowestQuestion, true);
                                     (Examples.lowestQuestion, false)]))
    as Hwp.
  { unfold generateBatch. apply wp_bind. unfold wp at 1, newSet.
    cbn [questionLoop]. apply wp_bind.
    eapply wp_mono; [by apply wp_generateQuestion_zero|].
    intros [q1 c1] s1 (-> & -> & Hs1 & Hused1).
    apply wp_bind. unfold wp at 1, setAdd. apply wp_bind.
    eapply wp_mono; [by apply wp_generateQuestion_zero|].
    intros [q2 c2] s2 (-> & -> & Hs2 & Hused2).
    apply wp_bind. unfold wp at 1, setAdd. apply wp_ret.
    cbn [usedFrequencies app].
    rewrite bool_decide_eq_false_2
      by (intros Hin; by apply elem_of_empty in Hin).
    rewrite bool_decide_eq_true_2 by by apply elem_of_union_r.
    done. }
  apply wp_returns in Hwp as (batch & s' & Hrun & ->). by exists s'.
Qed.

(** With an oracle that answers 0 a retry loop that follows the rule
    draws 20 Hz every time: once if that passes the check, 100 times if
    not. *)
Lemma lawful_zero (config : Config) (sl : Slot) :
  lawful config (fun _ => 0) sl ->
  band sl = {| min := 20; max := 80; count := 1 |}
  /\ kept (fun _ => 0) sl = 20%Z
  /\ (acceptable config sl 20 -> draws sl = 1%nat)
  /\ (~ acceptable config sl 20 -> draws sl = 100%nat).
Proof.
  intros (Hband & Hdraws & Hbefore & Hlast).
  rewrite Rmult_0_l in Hband.
  replace (floor 0) with 0%Z in Hband
    by (symmetry; apply (floor_unique 0 0); lra).
  injection Hband as Hband.
  assert (forall k, drawn (fun _ => 0) sl k = 20%Z) as Hdrawn.
  { intros k. unfold drawn. rewrite <- Hband. by apply candidate_zero. }
  split; [done|]. split; [apply Hdrawn|]. split.
  - intros Hok. destruct (decide (draws sl = 1%nat)) as [|Hne]; [done|].
    destruct (Hbefore 0%nat); [lia|]. by rewrite Hdrawn.
  - intros Hfail. destruct Hlast as [Hok|]; [|done].
    unfold satisfied, kept in Hok. by rewrite Hdrawn in Hok.
Qed.

(** Two easy questions from an oracle that always answers 0, with the
    retry loops of the run: the first loop keeps its first candidate,
    20 Hz; the second draws 100 candidates, all 20 Hz and all refused as
    used, and keeps the last, so the second question repeats the
    frequency of the first. *)
Lemma relaxation_run :
  exists s' first second,
    generateBatch "easy" 2 Examples.zeroState
    = Return [(Examples.lowestQuestion, true);
              (Examples.lowestQuestion, false)] s'
    /\ explains Examples.easy (fun _ => 0) 0 ∅
         [Examples.lowestQuestion; Examples.lowestQuestion]
         [[first]; [second]]
    /\ lawful Examples.easy (fun _ => 0) first
    /\ lawful Examples.easy (fun _ => 0) second
    /\ pos first = 0%nat /\ draws first = 1%nat
    /\ satisfied Examples.easy (fun _ => 0) first
    /\ pos second = 2%nat /\ draws second = 100%nat
    /\ kept (fun _ => 0) second = 20%Z
    /\ ~ satisfied Examples.easy (fun _ => 0) second.
Proof.
  destruct relaxation_example as [s' Hrun].
  destruct (generateBatch_run "easy" Examples.easy 2 Examples.zeroState
              zeroState_unit_interval eq_refl)
    as (batch & runs & s1 & Hrun' & Hexplains & Hlaws & _).
  rewrite Hrun in Hrun'. injection Hrun' as <- <-.
  cbn [fmap list_fmap fst Examples.zeroState entropy] in Hexplains, Hlaws.
  destruct runs as [|slots1 [|slots2 [|? ?]]];
    cbn [explains] in Hexplains; try tauto.
  pose proof Hexplains as Hexp.
  destruct Hexplains as (Hlen1 & Hchain1 & _ & Hlen2 & Hchain2 & _).
  destruct slots1 as [|first [|? ?]]; try done.
  destruct slots2 as [|second [|? ?]]; try done.
  apply Forall_cons in Hlaws as [Hlaw1 Hlaws].
  apply Forall_cons in Hlaws as [Hlaw2 _].
  apply Forall_cons in Hlaw1 as [Hlaw1 _].
  apply Forall_cons in Hlaw2 as [Hlaw2 _].
  destruct Hchain1 as (Hpos1 & Hused1 & Hchosen1 & _).
  destruct Hchain2 as (Hpos2 & Hused2 & Hchosen2 & _).
  destruct (lawful_zero _ _ Hlaw1) as (_ & Hkept1 & Hone1 & _).
  destruct (lawful_zero _ _ Hlaw2) as (_ & Hkept2 & _ & Hall2).
  assert (acceptable Examples.easy first 20) as Hok1.
  { unfold acceptable, admissible. rewrite Hchosen1, Hused1. split.
    - intros g Hg. by apply elem_of_nil in Hg.
    - intros Hin. by apply elem_of_empty in Hin. }
  assert (~ acceptable Examples.easy second 20) as Hfail2.
  { unfold acceptable, admissible. rewrite Hused2. intros [_ Hnot].
    apply Hnot. cbn [usedAfter foldl]. rewrite Hkept1.
    apply elem_of_union_r, elem_of_union_l. by apply elem_of_singleton. }
  specialize (Hone1 Hok1). specialize (Hall2 Hfail2).
  exists s', first, second.
  split; [done|]. split.
  { exact Hexp. }
  split; [done|]. split; [done|]. split; [done|]. split; [done|].
  split; [unfold satisfied; by rewrite Hkept1|].
  split; [rewrite Hpos2; cbn [consumed foldr]; rewrite Hone1; done|].
  split; [done|]. split; [done|].
  unfold satisfied. by rewrite Hkept2.
Qed.

End Relaxation.
